(** * llama-cpp-tools: the tool registry and its call-discovery engine

    A shallow embedding of [include/llama_cpp_tools/tool_registry.h] and
    [src/tool_registry.cpp]: the registry ([register_tool], [invoke]), the
    incremental extractor of complete JSON values, the discovery of tool
    calls in an API response, their execution (one after the other or on
    separate threads) and the streaming driver.

    Conventions of the embedding:
    - [nlohmann::json] values are the inductive type [json]; an object is
      the list of its (key, value) pairs in iteration order, and [find] is
      the first match (for a [std::map] the keys are sorted and unique);
    - C++ exceptions are values: a function that may throw returns a
      value of type [exc], and [try]/[catch] is a match on it;
    - [std::string] buffers scanned byte by byte are [list ascii], names and
      keys are [string];
    - [json::parse], which belongs to the JSON library, is a parameter. *)

From Stdlib Require Import Ascii String ZArith Lia.
From stdpp Require Import base option list strings gmap sorting.

Local Open Scope nat_scope.
Set Warnings "-register-all".

(** ** Characters and texts *)

Module Chars.

Definition lbrace : ascii := "{"%char.
Definition rbrace : ascii := "}"%char.
Definition lbracket : ascii := "["%char.
Definition rbracket : ascii := "]"%char.
Definition backslash : ascii := "\"%char.
Definition dquote : ascii := "034"%char.

(** Sample texts are written with ['] where the JSON text has a double
    quote. *)
Definition text (s : string) : list ascii :=
  map (fun c => if Ascii.eqb c "'"%char then dquote else c)
      (list_ascii_of_string s).

End Chars.

(** ** The incremental extractor ([extract_complete_json_values]) *)

Module Extractor.
Import Chars.

(** [buffer[i] != '{' && buffer[i] != '['] fails. *)
Definition is_opener (c : ascii) : bool :=
  Ascii.eqb c lbrace || Ascii.eqb c lbracket.

(** [const char closer = (opener == '{') ? '}' : ']';] *)
Definition closer_of (opener : ascii) : ascii :=
  if Ascii.eqb opener lbrace then rbrace else rbracket.

(** The first loop, [while (i < buffer.size() && buffer[i] != '{' &&
    buffer[i] != '[') ++i;], run on [rest = buffer[i..]]; the result is
    the final [i]. *)
Fixpoint skip_noise (rest : list ascii) (i : nat) : nat :=
  match rest with
  | [] => i
  | c :: rest' => if is_opener c then i else skip_noise rest' (S i)
  end.

(** The locals [depth], [in_string] and [escape] of the scanning loop.
    [depth] is an [int] that moves by one per byte read, so it stays within
    the range of [int] on any buffer of fewer than [2^31] bytes; it is an
    integer of [Z] here. *)
Record scan_state : Type := ScanState {
  depth : Z;
  in_string : bool;
  escape : bool
}.

Definition scan_init : scan_state :=
  {| depth := 0; in_string := false; escape := false |}.

(** One pass through the body of the [for] loop: either the loop goes on
    with updated locals, or the value closed and the loop is left. *)
Inductive scan_outcome : Type :=
| Continue (st : scan_state)
| Closed.

Definition scan_char (opener closer : ascii) (st : scan_state) (c : ascii)
  : scan_outcome :=
  if in_string st then
    if escape st then
      Continue {| depth := depth st; in_string := true; escape := false |}
    else if Ascii.eqb c backslash then
      Continue {| depth := depth st; in_string := true; escape := true |}
    else if Ascii.eqb c dquote then
      Continue {| depth := depth st; in_string := false; escape := escape st |}
    else Continue st
  else
    if Ascii.eqb c dquote then
      Continue {| depth := depth st; in_string := true; escape := escape st |}
    else if Ascii.eqb c opener then
      Continue {| depth := (depth st + 1)%Z; in_string := false;
                  escape := escape st |}
    else if Ascii.eqb c closer then
      if ((depth st - 1)%Z =? 0)%Z then Closed
      else Continue {| depth := (depth st - 1)%Z; in_string := false;
                       escape := escape st |}
    else Continue st.

(** The [for (; i < buffer.size(); ++i)] loop on [rest = buffer[i..]]:
    [Some end] when a value closed at index [end - 1], [None] when the
    loop ran to the end of the buffer. *)
Fixpoint scan (opener closer : ascii) (st : scan_state)
         (rest : list ascii) (i : nat) : option nat :=
  match rest with
  | [] => None
  | c :: rest' =>
      match scan_char opener closer st c with
      | Closed => Some (S i)
      | Continue st' => scan opener closer st' rest' (S i)
      end
  end.

(** The locals after the loop has read all of [rest] without closing;
    [None] once the value closed. *)
Fixpoint scan_locals (opener closer : ascii) (st : scan_state)
         (rest : list ascii) : option scan_state :=
  match rest with
  | [] => Some st
  | c :: rest' =>
      match scan_char opener closer st c with
      | Closed => None
      | Continue st' => scan_locals opener closer st' rest'
      end
  end.

(** The outer [while (i < buffer.size())] loop.  Every iteration starts
    with [i = 0]: the loop is entered with it and an emission resets it.
    An iteration that emits erases at least one byte, so [fuel] equal to
    the size of the buffer is never used up. *)
Fixpoint extract_loop (fuel : nat) (buffer : list ascii)
         (out : list (list ascii)) : list (list ascii) * list ascii :=
  match fuel with
  | 0 => (out, buffer)
  | S fuel' =>
      if negb (0 <? length buffer) then (out, buffer) else
      let start := skip_noise buffer 0 in
      if length buffer <=? start then (out, buffer) else
      let opener := nth start buffer lbrace in
      let closer := closer_of opener in
      match scan opener closer scan_init (drop start buffer) start with
      | None => (out, buffer)
      | Some end_ =>
          extract_loop fuel' (drop end_ buffer)
            (out ++ [take (end_ - start) (drop start buffer)])
      end
  end.

Definition extract_complete_json_values (buffer : list ascii)
  : list (list ascii) * list ascii :=
  extract_loop (length buffer) buffer [].

End Extractor.

(** ** JSON values and the operations of [nlohmann::json] the code uses *)

Module Json.

(** The code never looks inside a number, so one constructor stands for
    the integer, unsigned and floating kinds. *)
Inductive json : Type :=
| JNull
| JBool (b : bool)
| JNumber (n : Z)
| JString (s : string)
| JArray (items : list json)
| JObject (members : list (string * json)).

Definition is_object (j : json) : bool :=
  match j with JObject _ => true | _ => false end.
Definition is_array (j : json) : bool :=
  match j with JArray _ => true | _ => false end.
Definition is_string (j : json) : bool :=
  match j with JString _ => true | _ => false end.

(** [object_t::find]. *)
Fixpoint find_member (key : string) (members : list (string * json))
  : option json :=
  match members with
  | [] => None
  | (k, v) :: rest => if String.eqb k key then Some v else find_member key rest
  end.

(** [j.contains(key)] and, when it holds, [j[key]]: [Some] of the member
    when [j] is an object that has the key, [None] otherwise. *)
Definition member (j : json) (key : string) : option json :=
  match j with
  | JObject members => find_member key members
  | _ => None
  end.

Definition contains (j : json) (key : string) : bool :=
  match member j key with Some _ => true | None => false end.

(** The values a range-based [for] over [j] visits: the elements of an
    array, the values of an object, nothing for null, and the value
    itself for any other primitive. *)
Definition elements (j : json) : list json :=
  match j with
  | JNull => []
  | JArray items => items
  | JObject members => map snd members
  | _ => [j]
  end.

(** The exceptions of the library the code can meet. *)
Inductive json_error : Type :=
| type_error (id : Z)
| parse_error.

(** [j.value(key, default)] with a string default: the default when the
    key is absent, [type_error] 302 when the member is not a string and
    306 when [j] is not an object. *)
Definition value_string (j : json) (key default : string)
  : json_error + string :=
  match j with
  | JObject members =>
      match find_member key members with
      | Some (JString s) => inr s
      | Some _ => inl (type_error 302)
      | None => inr default
      end
  | _ => inl (type_error 306)
  end.

End Json.

(** ** Exceptions *)

Module Exc.
Import Json.

(** An exception as a [catch] site tells them apart: one derived from
    [std::exception], with its [what()], or anything else. *)
Inductive thrown : Type :=
| std_exception (what : string)
| other_exception.

(** What can leave an entry point of the registry.  The exceptions of the
    JSON library derive from [std::exception] too; they are kept apart
    because the text of their [what()] is the library's. *)
Inductive failure : Type :=
| Thrown (t : thrown)
| JsonError (e : json_error).

Inductive exc (E A : Type) : Type :=
| Ok (a : A)
| Raise (e : E).
Arguments Ok {E A} a.
Arguments Raise {E A} e.

Definition bind {E A B} (m : exc E A) (k : A -> exc E B) : exc E B :=
  match m with
  | Ok a => k a
  | Raise e => Raise e
  end.

Definition of_json {A} (m : json_error + A) : exc failure A :=
  match m with
  | inr a => Ok a
  | inl e => Raise (JsonError e)
  end.

Definition of_thrown {A} (m : exc thrown A) : exc failure A :=
  match m with
  | Ok a => Ok a
  | Raise t => Raise (Thrown t)
  end.

End Exc.

Import Json Exc.

Notation "'do' x <- m ; k" := (bind m (fun x => k))
  (at level 10, x name, m at level 100, k at level 200).

(** ** The registry: [register_tool] and [invoke] *)

(** [ToolHandler]: a handler returns a value or throws. *)
Abbreviation ToolHandler := (json -> exc thrown json).

Record ToolRegistry : Type := {
  tools_ : gmap string ToolHandler;
  schemas_ : gmap string json
}.

Definition empty_registry : ToolRegistry :=
  {| tools_ := ∅; schemas_ := ∅ |}.

(** [std::map::emplace]: inserts when the key is absent and leaves the map
    as it is when the key is present. *)
Definition emplace {V : Type} (key : string) (v : V) (m : gmap string V)
  : gmap string V :=
  match m !! key with
  | Some _ => m
  | None => <[key := v]> m
  end.

Definition register_tool (reg : ToolRegistry) (name : string)
           (handler : ToolHandler) (schema : json) : ToolRegistry :=
  {| tools_ := emplace name handler (tools_ reg);
     schemas_ := emplace name schema (schemas_ reg) |}.

Definition invoke (reg : ToolRegistry) (name : string) (args : json)
  : exc thrown json :=
  match tools_ reg !! name with
  | None => Raise (std_exception ("Tool not found: " ++ name))
  | Some handler => handler args
  end.

(** [ToolRegistry::ExecutionResult]. *)
Record ExecutionResult : Type := {
  tool_name : string;
  arguments : json;
  result : json;
  error : string
}.

(** A discovered call: its name and its arguments. *)
Abbreviation call := (string * json)%type.

(** How the calls run: one after the other, or each on a thread of its own
    ([std::launch::async]).  [finish_order] lists the tasks that finish
    before the joining loop asks for them, in the order in which they
    finish; any list of indices is a possible run. *)
Inductive exec_mode : Type :=
| sequential
| concurrent (finish_order : list nat).

(** The calls the streaming driver makes, in order. *)
Inductive event : Type :=
| Dispatched (obj : json)
| Delivered (r : ExecutionResult).

Section Engine.

(** [json::parse]: [None] when it throws [parse_error]. *)
Variable parse : string -> option json.

Definition parse_json (s : string) : exc failure json :=
  match parse s with
  | Some v => Ok v
  | None => Raise (JsonError parse_error)
  end.

(** *** [handle_tool_call_response] *)

(** The body of the inner loop for an element that has a [function]
    member, with the calls of [invoke] it makes. *)
Definition invoke_tool_call (reg : ToolRegistry) (func : json)
  : list call * exc failure json :=
  match of_json (value_string func "name" EmptyString) with
  | Raise e => ([], Raise e)
  | Ok name =>
      match of_json (value_string func "arguments" "{}") with
      | Raise e => ([], Raise e)
      | Ok args_str =>
          match parse_json args_str with
          | Raise e => ([], Raise e)
          | Ok args => ([(name, args)], of_thrown (invoke reg name args))
          end
      end
  end.

(** The loop over the elements of [tool_calls]: [Some] when the loop
    returns, [None] when it runs to its end. *)
Fixpoint scan_tool_calls (reg : ToolRegistry) (tcs : list json)
  : option (list call * exc failure json) :=
  match tcs with
  | [] => None
  | tc :: rest =>
      match member tc "function" with
      | None => scan_tool_calls reg rest
      | Some func => Some (invoke_tool_call reg func)
      end
  end.

(** [for (const auto& choice : entries)].  Both tests that select
    [message] look for the key [message]. *)
Fixpoint scan_choices (reg : ToolRegistry) (entries : list json)
  : option (list call * exc failure json) :=
  match entries with
  | [] => None
  | choice :: rest =>
      let message :=
        if contains choice "message" then member choice "message"
        else if contains choice "message" then member choice "message"
        else None in
      match message with
      | None => scan_choices reg rest
      | Some message =>
          match member message "tool_calls" with
          | Some (JArray tcs) =>
              match scan_tool_calls reg tcs with
              | Some r => Some r
              | None => scan_choices reg rest
              end
          | _ => scan_choices reg rest
          end
      end
  end.

Definition direct_entries (api_response : json) : json :=
  if is_object api_response then
    match member api_response "choices" with
    | Some choices => choices
    | None => JArray [api_response]
    end
  else api_response.

Definition handle_tool_call_response_run (reg : ToolRegistry)
           (api_response : json) : list call * exc failure json :=
  match scan_choices reg (elements (direct_entries api_response)) with
  | Some r => r
  | None => ([], Raise (Thrown (std_exception "No tool call found in response")))
  end.

Definition handle_tool_call_response (reg : ToolRegistry)
           (api_response : json) : exc failure json :=
  snd (handle_tool_call_response_run reg api_response).

(** The calls of [invoke] made by [handle_tool_call_response]. *)
Definition handle_tool_call_response_invocations (reg : ToolRegistry)
           (api_response : json) : list call :=
  fst (handle_tool_call_response_run reg api_response).

(** *** Discovery: the helpers of the anonymous namespace *)

Definition parse_function_arguments (func : json) : json :=
  match member func "arguments" with
  | None => JObject []
  | Some a =>
      match a with
      | JString s =>
          match parse s with
          | Some v => v
          | None => JObject []
          end
      | JObject _ | JArray _ => a
      | _ => JObject []
      end
  end.

(** The name of [func], empty by default; a call is appended to [out]
    when the name is not empty. *)
Definition collect_call (func : json) (out : list call)
  : exc failure (list call) :=
  do name <- of_json (value_string func "name" EmptyString);
  if negb (String.eqb name EmptyString) then
    Ok (out ++ [(name, parse_function_arguments func)])
  else Ok out.

Fixpoint collect_tool_calls_list (tcs : list json) (out : list call)
  : exc failure (list call) :=
  match tcs with
  | [] => Ok out
  | tc :: rest =>
      let func :=
        match member tc "function" with
        | Some f => f
        | None => tc
        end in
      do out' <- collect_call func out;
      collect_tool_calls_list rest out'
  end.

Definition collect_tool_calls_from_node (node : json) (out : list call)
  : exc failure (list call) :=
  do out1 <- match member node "tool_calls" with
             | Some (JArray tcs) => collect_tool_calls_list tcs out
             | _ => Ok out
             end;
  match member node "function_call" with
  | Some (JObject fc) => collect_call (JObject fc) out1
  | _ => Ok out1
  end.

Definition pick_message_like (choice_or_msg : json) : json :=
  if is_object choice_or_msg then
    match member choice_or_msg "message" with
    | Some m => m
    | None =>
        match member choice_or_msg "delta" with
        | Some d => d
        | None => choice_or_msg
        end
    end
  else choice_or_msg.

(** *** [process_remote_response_and_execute] *)

Definition remote_entries (api_response : json) : json :=
  if is_object api_response && contains api_response "choices" then
    default JNull (member api_response "choices")
  else if negb (is_array api_response) then JArray [api_response]
  else api_response.

(** Step 1, [for (const auto& entry : entries)]. *)
Fixpoint discover_loop (entries : list json) (calls : list call)
  : exc failure (list call) :=
  match entries with
  | [] => Ok calls
  | entry :: rest =>
      do calls' <-
        collect_tool_calls_from_node (pick_message_like entry) calls;
      discover_loop rest calls'
  end.

Definition discover (api_response : json) : exc failure (list call) :=
  discover_loop (elements (remote_entries api_response)) [].

(** The body shared by the sequential loop and by the task of the
    concurrent path: [invoke] inside [try], the two [catch] clauses. *)
Definition run_call (reg : ToolRegistry) (c : call) : ExecutionResult :=
  let r := {| tool_name := fst c; arguments := snd c;
              result := JNull; error := EmptyString |} in
  match invoke reg (fst c) (snd c) with
  | Ok v =>
      {| tool_name := tool_name r; arguments := arguments r;
         result := v; error := error r |}
  | Raise (std_exception what) =>
      {| tool_name := tool_name r; arguments := arguments r;
         result := result r; error := what |}
  | Raise other_exception =>
      {| tool_name := tool_name r; arguments := arguments r;
         result := result r; error := "Unknown error invoking tool" |}
  end.

(** [if (!concurrent) { for (const auto& [name, args] : calls) ... }] *)
Fixpoint execute_sequential (reg : ToolRegistry) (calls : list call)
         (results : list ExecutionResult) : list ExecutionResult :=
  match calls with
  | [] => results
  | c :: rest => execute_sequential reg rest (results ++ [run_call reg c])
  end.

(** The task of [calls[i]] finishes: its result is stored in the shared
    state of [futs[i]]. *)
Definition finish (reg : ToolRegistry) (calls : list call)
           (futs : list (option ExecutionResult)) (i : nat)
  : list (option ExecutionResult) :=
  match calls !! i with
  | Some c => <[i := Some (run_call reg c)]> futs
  | None => futs
  end.

(** The futures when the joining loop starts. *)
Definition launch (reg : ToolRegistry) (calls : list call)
           (finish_order : list nat) : list (option ExecutionResult) :=
  foldl (finish reg calls) (replicate (length calls) None) finish_order.

(** [f.get()]: the stored result; a task that has not finished yet is
    waited for. *)
Definition future_get (reg : ToolRegistry) (c : call)
           (fut : option ExecutionResult) : ExecutionResult :=
  match fut with
  | Some r => r
  | None => run_call reg c
  end.

(** [for (auto& f : futs) results.push_back(f.get());] *)
Fixpoint join_loop (reg : ToolRegistry) (calls : list call)
         (futs : list (option ExecutionResult))
         (results : list ExecutionResult) : list ExecutionResult :=
  match calls, futs with
  | c :: calls', f :: futs' =>
      join_loop reg calls' futs' (results ++ [future_get reg c f])
  | _, _ => results
  end.

(** Step 2. *)
Definition execute (reg : ToolRegistry) (mode : exec_mode)
           (calls : list call) : list ExecutionResult :=
  match mode with
  | sequential => execute_sequential reg calls []
  | concurrent finish_order =>
      join_loop reg calls (launch reg calls finish_order) []
  end.

Definition process_remote_response_and_execute (reg : ToolRegistry)
           (api_response : json) (mode : exec_mode)
  : exc failure (list ExecutionResult) :=
  do calls <- discover api_response;
  Ok (execute reg mode calls).

(** *** [process_streaming_response_and_execute] *)

(** [for (const auto& r : batch) on_result(r);] where [on_result r] is
    [false] when the callback throws: the calls made. *)
Fixpoint deliver (on_result : ExecutionResult -> bool)
         (batch : list ExecutionResult) : list ExecutionResult :=
  match batch with
  | [] => []
  | r :: rest => r :: (if on_result r then deliver on_result rest else [])
  end.

(** The body of the loop over the extracted texts: everything is inside
    [try { ... } catch (...) { }]. *)
Definition process_blob (reg : ToolRegistry) (mode : exec_mode)
           (on_result : ExecutionResult -> bool) (s : list ascii)
  : list event :=
  match parse (string_of_list_ascii s) with
  | None => []
  | Some obj =>
      Dispatched obj ::
      match process_remote_response_and_execute reg obj mode with
      | Raise _ => []
      | Ok batch => map Delivered (deliver on_result batch)
      end
  end.

(** [while (true)]: the chunk source is the list of the chunks it hands
    out before it returns [false]; whatever the call that returns [false]
    leaves in [chunk] is not read. *)
Fixpoint stream_loop (reg : ToolRegistry) (mode : exec_mode)
         (on_result : ExecutionResult -> bool)
         (chunks : list (list ascii)) (buffer : list ascii)
         (trace : list event) : list event * list ascii :=
  match chunks with
  | [] => (trace, buffer)
  | chunk :: more =>
      let '(json_blobs, buffer') :=
        Extractor.extract_complete_json_values (buffer ++ chunk) in
      stream_loop reg mode on_result more buffer'
        (trace ++ flat_map (process_blob reg mode on_result) json_blobs)
  end.

(** The calls made by the driver and the buffer it ends with. *)
Definition process_streaming_response_and_execute (reg : ToolRegistry)
           (get_chunk : list (list ascii))
           (on_result : ExecutionResult -> bool) (mode : exec_mode)
  : list event * list ascii :=
  let '(trace, buffer) := stream_loop reg mode on_result get_chunk [] [] in
  let '(final_blobs, buffer') :=
    Extractor.extract_complete_json_values buffer in
  (trace ++ flat_map (process_blob reg mode on_result) final_blobs, buffer').

End Engine.

(** ** Notions used to state the properties of the extractor *)

Module ExtractorSpec.
Import Chars Extractor.

(** What one iteration of the outer loop finds in the buffer: the index
    of the first opener and the index after the byte that closes it. *)
Definition first_value (buffer : list ascii) : option (nat * nat) :=
  let start := skip_noise buffer 0 in
  if length buffer <=? start then None
  else
    let opener := nth start buffer lbrace in
    match scan opener (closer_of opener) scan_init (drop start buffer) start with
    | None => None
    | Some end_ => Some (start, end_)
    end.

(** A text is a complete value for the extractor when it begins with an
    opener and the scan started there closes on its last byte. *)
Definition complete_value (v : list ascii) : bool :=
  match v with
  | [] => false
  | opener :: _ =>
      is_opener opener
      && bool_decide (scan opener (closer_of opener) scan_init v 0
                      = Some (length v))
  end.

Definition noise (pre : list ascii) : Prop :=
  Forall (fun c => is_opener c = false) pre.


(** The extractor driven by a sequence of chunks: each chunk is appended
    to the buffer and the extractor is called on it. *)
Fixpoint feed (chunks : list (list ascii)) (buffer : list ascii)
         (out : list (list ascii)) : list (list ascii) * list ascii :=
  match chunks with
  | [] => (out, buffer)
  | chunk :: more =>
      let '(vs, buffer') := extract_complete_json_values (buffer ++ chunk) in
      feed more buffer' (out ++ vs)
  end.


End ExtractorSpec.

(** ** Completed values, described without the scanner *)

Module ValueSpec.
Import Chars Extractor.





End ValueSpec.

(** ** Notions used to state the properties of discovery and dispatch *)

Module DispatchSpec.

(** The pair a result reports: the call it answers. *)
Definition call_of (r : ExecutionResult) : call :=
  (tool_name r, arguments r).

(** The description of a failure stored in [error]. *)
Definition describe (t : thrown) : string :=
  match t with
  | std_exception what => what
  | other_exception => "Unknown error invoking tool"
  end.

(** The result of a call whose invocation failed with [t]. *)
Definition failed (c : call) (t : thrown) : ExecutionResult :=
  {| tool_name := fst c; arguments := snd c;
     result := JNull; error := describe t |}.

(** The result a call must get from what its invocation did: the value
    returned, with an empty [error], or the description of what was
    thrown, with no [result]. *)
Definition reported (c : call) (outcome : exc thrown json) : ExecutionResult :=
  match outcome with
  | Ok v => {| tool_name := fst c; arguments := snd c;
               result := v; error := EmptyString |}
  | Raise t => failed c t
  end.

(** A future holds nothing yet, or the result of its own call. *)
Definition settled (reg : ToolRegistry) (c : call)
           (fut : option ExecutionResult) : Prop :=
  fut = None \/ fut = Some (run_call reg c).

(** The objects passed to [process_remote_response_and_execute] in a
    trace of the streaming driver. *)
Definition dispatched (trace : list event) : list json :=
  omap (fun e => match e with Dispatched obj => Some obj | Delivered _ => None end)
       trace.

Section Order.
Variable parse : string -> option json.

(** The order of discovery in the words of the specification.  The
    entries: the elements of [choices] when the response has that
    field, the elements of the response when it is a sequence, the
    response itself otherwise. *)
Definition spec_entries (api_response : json) : list json :=
  match member api_response "choices" with
  | Some choices => elements choices
  | None =>
      match api_response with
      | JArray items => items
      | _ => [api_response]
      end
  end.

(** The message-like node: [message], else [delta], else the entry. *)
Definition spec_node (entry : json) : json :=
  match member entry "message" with
  | Some m => m
  | None => default entry (member entry "delta")
  end.

(** The call an embedded object supplies; none without a non-empty
    name. *)
Definition supplied_call (func : json) : option call :=
  match value_string func "name" EmptyString with
  | inr name =>
      if String.eqb name EmptyString then None
      else Some (name, parse_function_arguments parse func)
  | inl _ => None
  end.

Definition list_convention (node : json) : list call :=
  match member node "tool_calls" with
  | Some (JArray tcs) =>
      omap (fun tc => supplied_call (default tc (member tc "function"))) tcs
  | _ => []
  end.

Definition singular_convention (node : json) : list call :=
  match member node "function_call" with
  | Some (JObject fc) => option_list (supplied_call (JObject fc))
  | _ => []
  end.

Definition discovery_order (api_response : json) : list call :=
  flat_map (fun entry =>
              list_convention (spec_node entry)
              ++ singular_convention (spec_node entry))
           (spec_entries api_response).

End Order.

End DispatchSpec.

(** ** Notions used to state the properties of the direct path *)

Module DirectSpec.

(** An entry in which [handle_tool_call_response] finds no call: when it
    has a [message] whose [tool_calls] is an array, no element of the
    array has a [function] member. *)
Definition barren (choice : json) : Prop :=
  forall message tcs,
    member choice "message" = Some message ->
    member message "tool_calls" = Some (JArray tcs) ->
    Forall (fun tc => contains tc "function" = false) tcs.

(** The response holds no call the direct path can find. *)
Definition no_direct_call (api_response : json) : Prop :=
  Forall barren (elements (direct_entries api_response)).

Definition no_call_found : exc failure json :=
  Raise (Thrown (std_exception "No tool call found in response")).

Section Claimed.
Variable parse : string -> option json.

(** The reading of the direct path that looks only under the first
    entry that has a [message] field: the [function] member of the
    first element of its [tool_calls] that has one. *)
Definition first_message_entry (entries : list json) : option json :=
  List.find (fun e => contains e "message") entries.

Definition first_function (tcs : list json) : option json :=
  match List.find (fun tc => contains tc "function") tcs with
  | Some tc => member tc "function"
  | None => None
  end.

Definition claimed_function (api_response : json) : option json :=
  match first_message_entry (elements (direct_entries api_response)) with
  | Some choice =>
      match member choice "message" with
      | Some message =>
          match member message "tool_calls" with
          | Some (JArray tcs) => first_function tcs
          | _ => None
          end
      | None => None
      end
  | None => None
  end.

Definition claimed_handle_tool_call_response (reg : ToolRegistry)
           (api_response : json) : exc failure json :=
  match claimed_function api_response with
  | Some func => snd (invoke_tool_call parse reg func)
  | None => no_call_found
  end.

End Claimed.

End DirectSpec.

(** ** Sample handlers, payloads and parser, after [tests/tests.cpp] *)

Module Samples.
Import Chars.

(** [echo]: returns the [msg] of its arguments; [at] throws when the key
    is absent. *)
Definition echo : ToolHandler := fun args =>
  match member args "msg" with
  | Some m => Ok (JObject [("echoed", m)])
  | None => Raise (std_exception "key 'msg' not found")
  end.

(** [bad]: always throws [std::runtime_error("fail")]. *)
Definition bad : ToolHandler := fun _ => Raise (std_exception "fail").

Definition shout : ToolHandler := fun _ => Ok (JString "second").

Definition registry : ToolRegistry :=
  register_tool
    (register_tool empty_registry "echo" echo (JObject [("name", JString "echo")]))
    "bad" bad (JObject [("name", JString "bad")]).

Definition str (s : string) : string := string_of_list_ascii (text s).

Definition hi_text : string := str "{'msg':'hi'}".
Definition hi_args : json := JObject [("msg", JString "hi")].

Definition tool_call (name arguments_text : string) : json :=
  JObject [("function",
            JObject [("arguments", JString arguments_text);
                     ("name", JString name)])].

Definition echo_function : json :=
  JObject [("arguments", JString hi_text); ("name", JString "echo")].

Definition response (tool_calls : list json) : json :=
  JObject [("choices",
            JArray [JObject [("message",
                              JObject [("tool_calls", JArray tool_calls)])]])].

Definition echo_response : json := response [tool_call "echo" hi_text].

Definition echo_response_text : list ascii :=
  text "{'choices':[{'message':{'tool_calls':[{'function':{'name':'echo','arguments':'{\'msg\':\'hi\'}'}}]}}]}".

(** Two entries with a [message]: the first holds no call, the second
    holds one. *)
Definition late_call_response : json :=
  JObject [("choices",
            JArray [JObject [("message", JObject [])];
                    JObject [("message",
                              JObject [("tool_calls",
                                        JArray [tool_call "echo" hi_text])])]])].

(** A call under [delta] and a call in the [function_call] form. *)
Definition delta_response : json :=
  JObject [("choices",
            JArray [JObject [("delta",
                              JObject [("tool_calls",
                                        JArray [tool_call "echo" hi_text])])];
                    JObject [("message",
                              JObject [("function_call",
                                        JObject [("arguments", JString hi_text);
                                                 ("name", JString "echo")])])]])].

(** A failing call, a call that succeeds and a call of a name that is not
    registered. *)
Definition mixed_response : json :=
  response [tool_call "bad" "{}"; tool_call "echo" hi_text;
            tool_call "ghost" "{}"].

Definition mixed_calls : list call :=
  [("bad", JObject []); ("echo", hi_args); ("ghost", JObject [])].

Definition echo_result : ExecutionResult :=
  {| tool_name := "echo"; arguments := hi_args;
     result := JObject [("echoed", JString "hi")]; error := EmptyString |}.

(** The chunk source of the streaming test: pieces of [n] bytes. *)
Fixpoint pieces (fuel n : nat) (s : list ascii) : list (list ascii) :=
  match fuel with
  | 0 => []
  | S fuel' =>
      match s with
      | [] => []
      | _ => take n s :: pieces fuel' n (drop n s)
      end
  end.

Definition get_chunk (n : nat) (s : list ascii) : list (list ascii) :=
  pieces (length s) n s.



(** Two entries: a [message] with two calls in [tool_calls] and one in
    [function_call], then a [delta] with one call.  None is registered. *)
Definition named (name : string) : json :=
  JObject [("arguments", JObject []); ("name", JString name)].

Definition ordered_response : json :=
  JObject [("choices",
            JArray [JObject [("message",
                              JObject [("function_call", named "c");
                                       ("tool_calls",
                                        JArray [JObject [("function", named "a")];
                                                named "b"])])];
                    JObject [("delta",
                              JObject [("tool_calls", JArray [named "d"])])]])].

(** A parser that knows the sample texts and rejects everything else. *)
Definition parse (s : string) : option json :=
  if String.eqb s "{}" then Some (JObject [])
  else if String.eqb s hi_text then Some hi_args
  else if String.eqb s (string_of_list_ascii echo_response_text)
       then Some echo_response
  else None.

End Samples.

(** ** The rest of the registry: [register_tool_spec], [schemas],
    [tools_for_openai], [invoke_concurrent] *)

Module Specs.

(** [ToolSpec]. *)
Record ToolSpec : Type := {
  name : string;
  description : string;
  parameters : json;
  handler : ToolHandler
}.

End Specs.

(** The schema [register_tool_spec] builds from an initializer list of
    three pairs; the object keeps its keys in order. *)
Definition spec_schema (spec : Specs.ToolSpec) : json :=
  JObject [("description", JString (Specs.description spec));
           ("name", JString (Specs.name spec));
           ("parameters", Specs.parameters spec)].

Definition register_tool_spec (reg : ToolRegistry) (spec : Specs.ToolSpec)
  : ToolRegistry :=
  register_tool reg (Specs.name spec) (Specs.handler spec) (spec_schema spec).

(** The order in which a [std::map] with [std::string] keys is iterated:
    ascending keys, compared byte by byte. *)
Definition key_le (a b : string * json) : Prop :=
  String.leb (fst a) (fst b) = true.

#[global] Instance key_le_dec : RelDecision key_le :=
  fun a b => bool_eq_dec (String.leb (fst a) (fst b)) true.

Definition in_key_order (m : gmap string json) : list (string * json) :=
  merge_sort key_le (map_to_list m).

(** [schemas()]: [arr.push_back(schema)] for every entry of [schemas_]. *)
Definition schemas (reg : ToolRegistry) : json :=
  JArray (foldl (fun arr entry => arr ++ [snd entry]) []
                (in_key_order (schemas_ reg))).

Definition tools_for_openai (reg : ToolRegistry) : json := schemas reg.

(** [invoke_concurrent]: the handler runs as an asynchronous task and
    [fut.get()] hands back what it returned or rethrows what it threw. *)
Definition invoke_concurrent (reg : ToolRegistry) (name : string) (args : json)
  : exc thrown json :=
  match tools_ reg !! name with
  | None => Raise (std_exception ("Tool not found: " ++ name))
  | Some handler =>
      let fut := handler args in
      fut
  end.

(** ** Notions used to state further properties *)

Module MoreSpec.
Import Chars Extractor ExtractorSpec DirectSpec.

(** A text that begins with an opener and ends with the closer of the same
    family. *)
Definition bracketed (v : list ascii) : Prop :=
  exists opener mid,
    is_opener opener = true /\ v = opener :: mid ++ [closer_of opener].

(** The values [vs], each preceded by the bytes of [noises] at the same
    position. *)
Definition interleave (noises vs : list (list ascii)) : list ascii :=
  concat (zip_with app noises vs).

(** The [Delivered] results of a trace of the streaming driver. *)
Definition delivered (trace : list event) : list ExecutionResult :=
  omap (fun e => match e with Delivered r => Some r | Dispatched _ => None end)
       trace.

(** The results of one dispatched object, empty when the dispatch throws. *)
Definition batch_of (parse : string -> option json) (reg : ToolRegistry)
           (mode : exec_mode) (obj : json) : list ExecutionResult :=
  match process_remote_response_and_execute parse reg obj mode with
  | Ok batch => batch
  | Raise _ => []
  end.

(** A node with no [tool_calls] array and no [function_call] object. *)
Definition no_call_fields (node : json) : Prop :=
  (forall tcs, member node "tool_calls" <> Some (JArray tcs))
  /\ (forall fc, member node "function_call" <> Some (JObject fc)).

(** The only failures that leave discovery. *)
Definition discovery_failure (e : failure) : Prop :=
  e = JsonError (type_error 302) \/ e = JsonError (type_error 306).

(** [func] is the [function] member the direct path runs: the first one
    it meets, entry after entry. *)
Definition first_direct_function (api_response func : json) : Prop :=
  exists before choice after message tcs_before tc tcs_after,
    elements (direct_entries api_response) = before ++ choice :: after
    /\ Forall barren before
    /\ member choice "message" = Some message
    /\ member message "tool_calls"
       = Some (JArray (tcs_before ++ tc :: tcs_after))
    /\ Forall (fun tc => contains tc "function" = false) tcs_before
    /\ member tc "function" = Some func.

(** A registry built by registrations, in the order of the list. *)
Definition register_all (reg : ToolRegistry)
           (l : list (string * ToolHandler * json)) : ToolRegistry :=
  foldl (fun r '(name, handler, schema) => register_tool r name handler schema)
        reg l.

(** A registry built from tool specifications, in the order of the list. *)
Definition register_specs (reg : ToolRegistry) (specs : list Specs.ToolSpec)
  : ToolRegistry :=
  foldl register_tool_spec reg specs.

End MoreSpec.

(** ** Further sample data *)

Module MoreSamples.
Import Chars Extractor Samples.

(** The locals after the scan has read an object opened inside another. *)
Definition nested_text : list ascii := text "'a':{'b'".
Definition nested_locals : scan_state :=
  {| depth := 2; in_string := false; escape := false |}.

(** The payload of the streaming test between two runs of noise. *)
Definition log_line : list ascii := text "log: ".
Definition trailer : list ascii := text " ok".
Definition noisy_stream : list ascii :=
  log_line ++ echo_response_text ++ trailer.

(** An answer in plain text, without any call. *)
Definition chat_response : json :=
  JObject [("choices",
            JArray [JObject [("message",
                              JObject [("content", JString "hi");
                                       ("role", JString "assistant")])]])].

(** A call whose arguments are an object, not a text. *)
Definition structured_function : json :=
  JObject [("arguments", hi_args); ("name", JString "echo")].
Definition structured_response : json :=
  response [JObject [("function", structured_function)]].

(** A call without a name. *)
Definition unnamed_function : json := JObject [("arguments", JString "{}")].
Definition unnamed_response : json :=
  response [JObject [("function", unnamed_function)]].

(** The registry of the samples with its schemas left out. *)
Definition bare_registry : ToolRegistry :=
  {| tools_ := tools_ registry; schemas_ := ∅ |}.

(** The specification of [echo] in the tests. *)
Definition echo_spec : Specs.ToolSpec :=
  {| Specs.name := "echo"; Specs.description := "echo args";
     Specs.parameters := JObject [("type", JString "object")];
     Specs.handler := echo |}.

Definition mixed_results : list ExecutionResult :=
  [DispatchSpec.failed ("bad", JObject []) (std_exception "fail");
   echo_result;
   DispatchSpec.failed ("ghost", JObject [])
     (std_exception "Tool not found: ghost")].

End MoreSamples.

(** * Proofs *)

(** ** The extractor *)

Module ExtractorFacts.
Import Chars Extractor ExtractorSpec.

Lemma skip_noise_bounds rest i :
  i <= skip_noise rest i <= i + length rest.
Proof.
  revert i; induction rest as [|c rest IH]; intros i; simpl; [lia|].
  destruct (is_opener c); [lia|]. specialize (IH (S i)). lia.
Qed.

Lemma skip_noise_shift rest i :
  skip_noise rest i = i + skip_noise rest 0.
Proof.
  revert i; induction rest as [|c rest IH]; intros i; simpl; [lia|].
  destruct (is_opener c); [lia|].
  rewrite (IH (S i)), (IH 1). lia.
Qed.

(** Where the first loop stops: on an opener, after bytes that are none. *)
Lemma skip_noise_split rest :
  skip_noise rest 0 < length rest ->
  exists pre o post,
    rest = pre ++ o :: post /\ noise pre /\ is_opener o = true
    /\ skip_noise rest 0 = length pre.
Proof.
  induction rest as [|c rest IH]; simpl; [lia|].
  destruct (is_opener c) eqn:Hc; intros Hlt.
  - exists [], c, rest. repeat split; auto. constructor.
  - rewrite skip_noise_shift in Hlt |- *.
    destruct IH as (pre & o & post & -> & Hpre & Ho & Hlen); [lia|].
    exists (c :: pre), o, post. repeat split; auto.
    + constructor; auto.
    + simpl. lia.
Qed.

Lemma skip_noise_app pre o post :
  noise pre -> is_opener o = true ->
  skip_noise (pre ++ o :: post) 0 = length pre.
Proof.
  intros Hpre Ho. induction Hpre as [|c pre Hc _ IH]; simpl.
  - now rewrite Ho.
  - rewrite Hc, skip_noise_shift, IH. reflexivity.
Qed.

Lemma skip_noise_all pre :
  noise pre -> skip_noise pre 0 = length pre.
Proof.
  induction 1 as [|c pre Hc _ IH]; simpl; [reflexivity|].
  rewrite Hc, skip_noise_shift, IH. reflexivity.
Qed.

Lemma scan_bounds opener closer st rest i e :
  scan opener closer st rest i = Some e -> i < e <= i + length rest.
Proof.
  revert st i; induction rest as [|c rest IH]; intros st i; simpl; [easy|].
  destruct (scan_char opener closer st c) as [st'|].
  - intros H. apply IH in H. lia.
  - intros [= <-]. lia.
Qed.

Lemma scan_shift opener closer st rest i :
  scan opener closer st rest i
  = (fun e => i + e) <$> scan opener closer st rest 0.
Proof.
  revert st i; induction rest as [|c rest IH]; intros st i; simpl; [easy|].
  destruct (scan_char opener closer st c) as [st'|].
  - rewrite (IH st' (S i)), (IH st' 1).
    destruct (scan opener closer st' rest 0); simpl; f_equal; lia.
  - simpl. f_equal. lia.
Qed.

(** A value that closed stays closed, at the same place, when more bytes
    arrive behind it. *)
Lemma scan_app opener closer st rest more i e :
  scan opener closer st rest i = Some e ->
  scan opener closer st (rest ++ more) i = Some e.
Proof.
  revert st i; induction rest as [|c rest IH]; intros st i; simpl; [easy|].
  destruct (scan_char opener closer st c) as [st'|]; auto.
Qed.

Lemma first_value_bounds buffer s e :
  first_value buffer = Some (s, e) -> s < e <= length buffer.
Proof.
  unfold first_value.
  destruct (Nat.leb_spec (length buffer) (skip_noise buffer 0)) as [|Hlt];
    [easy|].
  destruct (scan _ _ _ _ _) as [e'|] eqn:Hscan; [|easy].
  intros [= <- <-]. apply scan_bounds in Hscan.
  rewrite length_drop in Hscan. lia.
Qed.

Lemma first_value_app buffer more s e :
  first_value buffer = Some (s, e) ->
  first_value (buffer ++ more) = Some (s, e).
Proof.
  unfold first_value.
  destruct (Nat.leb_spec (length buffer) (skip_noise buffer 0)) as [|Hlt];
    [easy|].
  destruct (skip_noise_split buffer Hlt)
    as (pre & o & post & -> & Hpre & Ho & Hlen).
  rewrite <- app_assoc; simpl.
  rewrite !skip_noise_app by assumption.
  rewrite (proj2 (Nat.leb_gt _ _)) by (rewrite length_app; simpl; lia).
  rewrite !app_nth2, Nat.sub_diag by lia; simpl.
  rewrite !drop_app_length.
  destruct (scan o _ _ (o :: post) _) as [e'|] eqn:Hscan; [|easy].
  intros [= <- <-].
  change (o :: post ++ more) with ((o :: post) ++ more).
  now rewrite (scan_app _ _ _ _ more _ _ Hscan).
Qed.

Lemma first_value_complete pre v post :
  noise pre -> complete_value v = true ->
  first_value (pre ++ v ++ post) = Some (length pre, length pre + length v).
Proof.
  intros Hpre Hv. destruct v as [|o v]; [easy|].
  unfold complete_value in Hv. apply andb_true_iff in Hv as [Ho Hscan].
  apply bool_decide_eq_true in Hscan.
  unfold first_value.
  change ((o :: v) ++ post) with (o :: (v ++ post)).
  rewrite skip_noise_app by assumption.
  rewrite (proj2 (Nat.leb_gt _ _)) by (rewrite length_app; simpl; lia).
  rewrite app_nth2, Nat.sub_diag by lia.
  rewrite drop_app_length.
  change (o :: v ++ post) with ((o :: v) ++ post).
  change (nth 0 ((o :: v) ++ post) lbrace) with o.
  rewrite scan_shift, (scan_app _ _ _ _ post _ _ Hscan). reflexivity.
Qed.

Lemma first_value_noise buffer :
  noise buffer -> first_value buffer = None.
Proof.
  intros H. unfold first_value. rewrite skip_noise_all by assumption.
  now rewrite Nat.leb_refl.
Qed.


(** One iteration of the outer loop, in terms of [first_value]. *)
Lemma extract_loop_S fuel buffer out :
  extract_loop (S fuel) buffer out
  = match first_value buffer with
    | None => (out, buffer)
    | Some (s, e) =>
        extract_loop fuel (drop e buffer)
          (out ++ [take (e - s) (drop s buffer)])
    end.
Proof.
  unfold first_value. cbn [extract_loop].
  destruct buffer as [|c buffer]; [reflexivity|].
  change (negb (0 <? length (c :: buffer))) with false. cbv iota.
  destruct (length (c :: buffer) <=? skip_noise (c :: buffer) 0);
    [reflexivity|].
  now destruct (scan _ _ _ _ _).
Qed.

(** The results collected so far are only appended to. *)
Lemma extract_loop_out fuel buffer out :
  extract_loop fuel buffer out
  = (out ++ fst (extract_loop fuel buffer []),
     snd (extract_loop fuel buffer [])).
Proof.
  revert buffer out; induction fuel as [|fuel IH]; intros buffer out.
  - simpl. now rewrite app_nil_r.
  - rewrite !extract_loop_S.
    destruct (first_value buffer) as [[s e]|]; simpl.
    + rewrite (IH _ (out ++ _)), (IH _ [_]); simpl.
      now rewrite <- app_assoc.
    + now rewrite app_nil_r.
Qed.

(** The fuel is enough: more of it changes nothing. *)
Lemma extract_loop_fuel fuel1 fuel2 buffer out :
  length buffer <= fuel1 -> length buffer <= fuel2 ->
  extract_loop fuel1 buffer out = extract_loop fuel2 buffer out.
Proof.
  revert fuel2 buffer out; induction fuel1 as [|fuel1 IH];
    intros fuel2 buffer out H1 H2.
  - destruct buffer; [|simpl in H1; lia].
    destruct fuel2; [reflexivity|]. now rewrite extract_loop_S.
  - destruct fuel2 as [|fuel2].
    + destruct buffer; [|simpl in H2; lia]. now rewrite extract_loop_S.
    + rewrite !extract_loop_S.
      destruct (first_value buffer) as [[s e]|] eqn:Hfv; [|reflexivity].
      apply first_value_bounds in Hfv.
      apply IH; rewrite length_drop; lia.
Qed.

(** The equation of the extractor: it emits the first completed value,
    drops everything up to its end, and starts again on what is left. *)
Lemma extract_eq buffer :
  extract_complete_json_values buffer
  = match first_value buffer with
    | None => ([], buffer)
    | Some (s, e) =>
        (take (e - s) (drop s buffer)
           :: fst (extract_complete_json_values (drop e buffer)),
         snd (extract_complete_json_values (drop e buffer)))
    end.
Proof.
  unfold extract_complete_json_values.
  destruct (first_value buffer) as [[s e]|] eqn:Hfv.
  - pose proof (first_value_bounds _ _ _ Hfv) as Hb.
    destruct (length buffer) as [|n] eqn:Hlen; [lia|].
    rewrite extract_loop_S, Hfv, extract_loop_out. simpl.
    rewrite (extract_loop_fuel n (length (drop e buffer)));
      rewrite ?length_drop; try lia. reflexivity.
  - destruct (length buffer); [reflexivity|].
    now rewrite extract_loop_S, Hfv.
Qed.

Lemma extract_noise buffer :
  noise buffer -> extract_complete_json_values buffer = ([], buffer).
Proof.
  intros H. now rewrite extract_eq, first_value_noise.
Qed.

Lemma extract_complete pre v post :
  noise pre -> complete_value v = true ->
  extract_complete_json_values (pre ++ v ++ post)
  = (v :: fst (extract_complete_json_values post),
     snd (extract_complete_json_values post)).
Proof.
  intros Hpre Hv.
  rewrite extract_eq, (first_value_complete _ _ _ Hpre Hv).
  replace (length pre + length v - length pre) with (length v) by lia.
  rewrite drop_app_length, take_app_length.
  rewrite app_assoc, <- length_app, drop_app_length. reflexivity.
Qed.

(** What the extractor leaves behind holds nothing more to extract. *)
Lemma extract_rest buffer :
  first_value (snd (extract_complete_json_values buffer)) = None.
Proof.
  induction buffer as [buffer IH] using (induction_ltof1 _ (@length ascii)).
  unfold ltof in IH. rewrite extract_eq.
  destruct (first_value buffer) as [[s e]|] eqn:Hfv; simpl; [|assumption].
  apply IH. apply first_value_bounds in Hfv. rewrite length_drop. lia.
Qed.

Lemma extract_idempotent buffer :
  let rest := snd (extract_complete_json_values buffer) in
  extract_complete_json_values rest = ([], rest).
Proof.
  simpl. now rewrite (extract_eq (snd _)), extract_rest.
Qed.

(** Bytes that arrive later do not change what was already extracted:
    extracting from [buffer ++ more] is extracting from [buffer] and then
    from what that left, followed by [more]. *)
Lemma extract_app buffer more :
  extract_complete_json_values (buffer ++ more)
  = (fst (extract_complete_json_values buffer)
       ++ fst (extract_complete_json_values
                 (snd (extract_complete_json_values buffer) ++ more)),
     snd (extract_complete_json_values
            (snd (extract_complete_json_values buffer) ++ more))).
Proof.
  induction buffer as [buffer IH] using (induction_ltof1 _ (@length ascii)).
  unfold ltof in IH. rewrite (extract_eq buffer).
  destruct (first_value buffer) as [[s e]|] eqn:Hfv; simpl.
  - pose proof (first_value_bounds _ _ _ Hfv) as Hb.
    rewrite (extract_eq (buffer ++ more)), (first_value_app _ more _ _ Hfv).
    rewrite !drop_app_le by lia.
    rewrite take_app_le by (rewrite length_drop; lia).
    rewrite IH by (rewrite length_drop; lia). reflexivity.
  - now destruct (extract_complete_json_values (buffer ++ more)).
Qed.

(** Feeding chunk by chunk, from a buffer the extractor has been run on,
    is extracting from the whole text at once. *)
Lemma feed_out chunks buffer out :
  feed chunks buffer out
  = (out ++ fst (feed chunks buffer []), snd (feed chunks buffer [])).
Proof.
  revert buffer out; induction chunks as [|chunk chunks IH];
    intros buffer out; simpl.
  - now rewrite app_nil_r.
  - destruct (extract_complete_json_values _) as [vs buffer'].
    rewrite (IH _ (out ++ vs)), (IH _ vs); simpl.
    now rewrite <- app_assoc.
Qed.

Lemma feed_extract chunks buffer :
  first_value buffer = None ->
  feed chunks buffer [] = extract_complete_json_values (buffer ++ concat chunks).
Proof.
  revert buffer; induction chunks as [|chunk chunks IH]; intros buffer Hb;
    simpl.
  - now rewrite app_nil_r, extract_eq, Hb.
  - rewrite app_assoc, (extract_app (buffer ++ chunk)).
    pose proof (extract_rest (buffer ++ chunk)) as Hrest.
    destruct (extract_complete_json_values (buffer ++ chunk))
      as [vs buffer']; simpl in *.
    rewrite feed_out, (IH _ Hrest). reflexivity.
Qed.






End ExtractorFacts.

(** ** Completed values are what the scan accepts *)

Module ValueFacts.
Import Chars Extractor ExtractorSpec ExtractorFacts ValueSpec.

Local Abbreviation outside d :=
  {| depth := d; in_string := false; escape := false |}.
Local Abbreviation inside d :=
  {| depth := d; in_string := true; escape := false |}.







End ValueFacts.

Section ExtractorClaims.
Import Chars Extractor ExtractorSpec ExtractorFacts ValueSpec ValueFacts.



End ExtractorClaims.

(** ** Execution of the discovered calls *)

Section DispatchFacts.
Import DispatchSpec.

Variable parse : string -> option json.
Variable reg : ToolRegistry.

Lemma call_of_run_call c : call_of (run_call reg c) = c.
Proof.
  unfold call_of, run_call. destruct c as [name args]; simpl.
  now destruct (invoke reg name args) as [v|[what|]].
Qed.

(** The [catch] clauses: a failed invocation becomes the [error] of the
    result of that call. *)
Lemma run_call_failed c t :
  invoke reg (fst c) (snd c) = Raise t -> run_call reg c = failed c t.
Proof.
  unfold run_call, failed. intros ->. now destruct t.
Qed.

Lemma invoke_unregistered name args :
  tools_ reg !! name = None ->
  invoke reg name args = Raise (std_exception ("Tool not found: " ++ name)).
Proof. unfold invoke. now intros ->. Qed.

Lemma execute_sequential_map calls results :
  execute_sequential reg calls results = results ++ map (run_call reg) calls.
Proof.
  revert results; induction calls as [|c calls IH]; intros results; simpl.
  - now rewrite app_nil_r.
  - now rewrite IH, <- app_assoc.
Qed.

Lemma finish_settled calls futs i :
  Forall2 (settled reg) calls futs -> Forall2 (settled reg) calls (finish reg calls futs i).
Proof.
  intros H. unfold finish. destruct (calls !! i) as [c|] eqn:Hc; [|exact H].
  rewrite <- (list_insert_id calls i c Hc).
  apply Forall2_insert; [exact H|]. now right.
Qed.

Lemma launch_settled calls finish_order :
  Forall2 (settled reg) calls (launch reg calls finish_order).
Proof.
  unfold launch.
  assert (Hinit : Forall2 (settled reg) calls (replicate (length calls) None)).
  { induction calls; simpl; constructor; auto. now left. }
  revert Hinit. generalize (replicate (length calls) (@None ExecutionResult)).
  induction finish_order as [|i order IH]; intros futs H; simpl; [exact H|].
  apply IH, finish_settled, H.
Qed.

(** Joining in the order of the list gives each call its own result,
    whatever the tasks that had finished before. *)
Lemma join_loop_map calls futs results :
  Forall2 (settled reg) calls futs ->
  join_loop reg calls futs results = results ++ map (run_call reg) calls.
Proof.
  intros H. revert results.
  induction H as [|c fut calls futs Hc _ IH]; intros results; simpl.
  - now rewrite app_nil_r.
  - rewrite IH, <- app_assoc.
    now destruct Hc as [-> | ->].
Qed.

Lemma execute_map mode calls :
  execute reg mode calls = map (run_call reg) calls.
Proof.
  destruct mode as [|finish_order]; simpl.
  - apply execute_sequential_map.
  - apply join_loop_map, launch_settled.
Qed.

Lemma process_mode_independent api_response mode :
  process_remote_response_and_execute parse reg api_response mode
  = process_remote_response_and_execute parse reg api_response sequential.
Proof.
  unfold process_remote_response_and_execute.
  destruct (discover parse api_response); cbn [bind]; [|reflexivity].
  now rewrite !execute_map.
Qed.

Lemma process_discovered api_response mode calls :
  discover parse api_response = Ok calls ->
  process_remote_response_and_execute parse reg api_response mode
  = Ok (map (run_call reg) calls).
Proof.
  unfold process_remote_response_and_execute. intros ->; cbn [bind].
  now rewrite execute_map.
Qed.

(** *** Discovery follows the order of the specification *)

Lemma collect_call_spec func out out' :
  collect_call parse func out = Ok out' ->
  out' = out ++ option_list (supplied_call parse func).
Proof.
  unfold collect_call, supplied_call.
  destruct (value_string func "name" EmptyString) as [e|name]; simpl;
    [easy|].
  destruct (String.eqb name EmptyString); simpl; intros [= <-];
    [now rewrite app_nil_r | reflexivity].
Qed.

Lemma collect_tool_calls_list_spec tcs out out' :
  collect_tool_calls_list parse tcs out = Ok out' ->
  out' = out ++ omap (fun tc => supplied_call parse
                                  (default tc (member tc "function"))) tcs.
Proof.
  revert out; induction tcs as [|tc tcs IH]; intros out; simpl.
  - intros [= <-]. now rewrite app_nil_r.
  - replace (match member tc "function" with Some f => f | None => tc end)
      with (default tc (member tc "function"))
      by now destruct (member tc "function").
    destruct (collect_call parse _ out) as [out1|e] eqn:H1; simpl; [|easy].
    intros H2. apply collect_call_spec in H1 as ->. apply IH in H2 as ->.
    rewrite <- app_assoc. f_equal.
    now destruct (supplied_call parse _).
Qed.

Lemma collect_tool_calls_from_node_spec node out out' :
  collect_tool_calls_from_node parse node out = Ok out' ->
  out' = out ++ list_convention parse node ++ singular_convention parse node.
Proof.
  unfold collect_tool_calls_from_node, list_convention, singular_convention.
  intros H.
  assert (exists out1,
    match member node "tool_calls" with
    | Some (JArray tcs) => collect_tool_calls_list parse tcs out
    | _ => Ok out
    end = Ok out1
    /\ match member node "function_call" with
       | Some (JObject fc) => collect_call parse (JObject fc) out1
       | _ => Ok out1
       end = Ok out') as (out1 & H1 & H2).
  { destruct (match member node "tool_calls" with
              | Some (JArray tcs) => collect_tool_calls_list parse tcs out
              | _ => Ok out end) as [out1|e]; [|easy].
    now exists out1. }
  clear H. rewrite app_assoc.
  assert (out1 = out ++ match member node "tool_calls" with
                        | Some (JArray tcs) =>
                            omap (fun tc => supplied_call parse
                                   (default tc (member tc "function"))) tcs
                        | _ => []
                        end) as <-.
  { destruct (member node "tool_calls") as [[| | | |tcs|]|];
      try (injection H1 as <-; now rewrite app_nil_r).
    now apply collect_tool_calls_list_spec. }
  destruct (member node "function_call") as [[| | | | |fc]|];
    try (injection H2 as <-; now rewrite app_nil_r).
  now apply collect_call_spec.
Qed.

Lemma pick_message_like_spec entry : pick_message_like entry = spec_node entry.
Proof.
  unfold pick_message_like, spec_node. now destruct entry.
Qed.

Lemma remote_entries_spec api_response :
  elements (remote_entries api_response) = spec_entries api_response.
Proof.
  unfold remote_entries, spec_entries, contains.
  destruct api_response; simpl; try reflexivity.
  now destruct (find_member "choices" members).
Qed.

Lemma discover_loop_spec entries calls calls' :
  discover_loop parse entries calls = Ok calls' ->
  calls' = calls ++ flat_map (fun entry =>
                                list_convention parse (spec_node entry)
                                ++ singular_convention parse (spec_node entry))
                             entries.
Proof.
  revert calls; induction entries as [|entry entries IH]; intros calls; simpl.
  - intros [= <-]. now rewrite app_nil_r.
  - destruct (collect_tool_calls_from_node parse _ calls) as [calls1|e] eqn:H1;
      simpl; [|easy].
    intros H2. apply collect_tool_calls_from_node_spec in H1 as ->.
    apply IH in H2 as ->. rewrite pick_message_like_spec.
    now rewrite <- !app_assoc.
Qed.

Lemma discover_spec api_response calls :
  discover parse api_response = Ok calls ->
  calls = discovery_order parse api_response.
Proof.
  unfold discover, discovery_order. intros H.
  apply discover_loop_spec in H. now rewrite remote_entries_spec in H.
Qed.

(** What [run_call] stores is what [invoke] did. *)
Lemma run_call_reported c :
  run_call reg c = reported c (invoke reg (fst c) (snd c)).
Proof.
  unfold run_call, reported, failed, describe.
  now destruct (invoke reg (fst c) (snd c)) as [v|[what|]].
Qed.

End DispatchFacts.

Section DispatchClaims.
Import DispatchSpec.

Variable parse : string -> option json.
Variable reg : ToolRegistry.

(** Claim C1.  The results returned by
    [process_remote_response_and_execute] answer the discovered calls in
    the order of discovery: entry after entry and, within an entry, the
    calls of [tool_calls] in the order of the list and then the call of
    [function_call].  The sequential mode and the concurrent mode,
    whatever the order in which the tasks finish, return the same list. *)
Theorem C1_results_in_discovery_order
        (api_response : json) (mode : exec_mode) (outs : list ExecutionResult)
        (H : process_remote_response_and_execute parse reg api_response mode
             = Ok outs) :
  map call_of outs = discovery_order parse api_response
  /\ process_remote_response_and_execute parse reg api_response sequential
     = Ok outs
  /\ forall finish_order,
       process_remote_response_and_execute parse reg api_response
         (concurrent finish_order) = Ok outs.
Proof.
  assert (Hseq : process_remote_response_and_execute parse reg api_response
                   sequential = Ok outs)
    by now rewrite <- (process_mode_independent parse reg api_response mode).
  split; [|split; [exact Hseq|]].
  - destruct (discover parse api_response) as [calls|e] eqn:Hd.
    + rewrite (process_discovered _ _ _ _ _ Hd) in H. injection H as <-.
      rewrite <- (discover_spec _ _ _ Hd), map_map.
      rewrite (map_ext _ id (call_of_run_call reg)). apply map_id.
    + unfold process_remote_response_and_execute in H.
      now rewrite Hd in H.
  - intros finish_order. now rewrite process_mode_independent.
Qed.

(** Claim C2.  Once the calls are discovered, the function returns in
    both modes.  Whatever the other calls do, the result of each call is
    what its own invocation did: the value its handler returns, with an
    empty [error]; the description of what its handler throws, in [error]
    and with no [result]; the not-found failure when no handler has its
    name.  It is the result the call yields when it is executed alone, in
    either mode. *)
Theorem C2_failures_are_isolated
        (api_response : json) (mode : exec_mode) (calls : list call)
        (H : discover parse api_response = Ok calls) :
  exists outs,
    process_remote_response_and_execute parse reg api_response mode = Ok outs
    /\ length outs = length calls
    /\ (forall i c,
          calls !! i = Some c ->
          exists r,
            outs !! i = Some r
            /\ forall mode', execute reg mode' [c] = [r])
    /\ (forall i c t,
          calls !! i = Some c ->
          invoke reg (fst c) (snd c) = Raise t ->
          outs !! i = Some (failed c t))
    /\ (forall i c,
          calls !! i = Some c ->
          outs !! i = Some (reported c (invoke reg (fst c) (snd c))))
    /\ (forall i c handler,
          calls !! i = Some c ->
          tools_ reg !! fst c = Some handler ->
          outs !! i = Some (reported c (handler (snd c))))
    /\ (forall i c,
          calls !! i = Some c ->
          tools_ reg !! fst c = None ->
          outs !! i
          = Some (failed c (std_exception ("Tool not found: " ++ fst c)))).
Proof.
  exists (map (run_call reg) calls).
  split; [now apply process_discovered|].
  split; [now rewrite length_map|].
  assert (Hrep : forall i c,
            calls !! i = Some c ->
            map (run_call reg) calls !! i
            = Some (reported c (invoke reg (fst c) (snd c)))).
  { intros i c Hc. now rewrite list_lookup_fmap, Hc, <- run_call_reported. }
  split; [|split; [|split; [exact Hrep|split]]].
  - intros i c Hc. exists (run_call reg c). split.
    + now rewrite list_lookup_fmap, Hc.
    + intros mode'. now rewrite execute_map.
  - intros i c t Hc Ht. now rewrite (Hrep i c Hc), Ht.
  - intros i c handler Hc Hh. rewrite (Hrep i c Hc).
    unfold invoke. now rewrite Hh.
  - intros i c Hc Hn. rewrite (Hrep i c Hc).
    now rewrite (invoke_unregistered reg _ _ Hn).
Qed.

(** Claim C3.  A discovered call that names no registered handler gets a
    result with a non-empty [error] and no [result], and the function
    returns; [invoke] on such a name throws. *)
Theorem C3_unregistered_handler
        (api_response : json) (mode : exec_mode) (calls : list call)
        (i : nat) (name : string) (args : json)
        (Hd : discover parse api_response = Ok calls)
        (Hi : calls !! i = Some (name, args))
        (Hn : tools_ reg !! name = None) :
  (exists outs,
     process_remote_response_and_execute parse reg api_response mode = Ok outs
     /\ outs !! i = Some {| tool_name := name; arguments := args;
                            result := JNull;
                            error := "Tool not found: " ++ name |})
  /\ ("Tool not found: " ++ name)%string <> EmptyString
  /\ invoke reg name args
     = Raise (std_exception ("Tool not found: " ++ name)).
Proof.
  pose proof (invoke_unregistered reg name args Hn) as Hinv.
  split; [|split; [easy|exact Hinv]].
  exists (map (run_call reg) calls). split; [now apply process_discovered|].
  rewrite list_lookup_fmap, Hi; simpl.
  now rewrite (run_call_failed reg (name, args) _ Hinv).
Qed.

End DispatchClaims.

(** ** The streaming driver *)

Section StreamingFacts.
Import Extractor ExtractorSpec ExtractorFacts DispatchSpec.

Variable parse : string -> option json.
Variable reg : ToolRegistry.
Variable mode : exec_mode.
Variable on_result : ExecutionResult -> bool.

Local Abbreviation blob := (process_blob parse reg mode on_result).

Lemma dispatched_app t1 t2 :
  dispatched (t1 ++ t2) = dispatched t1 ++ dispatched t2.
Proof. apply omap_app. Qed.

Lemma dispatched_delivered rs : dispatched (map Delivered rs) = [].
Proof. induction rs; simpl; auto. Qed.

(** A text is passed on once when it parses and not at all otherwise. *)
Lemma dispatched_blob s :
  dispatched (blob s) = option_list (parse (string_of_list_ascii s)).
Proof.
  unfold blob, process_blob.
  destruct (parse (string_of_list_ascii s)) as [obj|]; [|reflexivity].
  change (dispatched (Dispatched obj :: ?t)) with (obj :: dispatched t).
  destruct (process_remote_response_and_execute parse reg obj mode);
    [now rewrite dispatched_delivered | reflexivity].
Qed.

Lemma dispatched_blobs blobs :
  dispatched (flat_map blob blobs)
  = omap (fun s => parse (string_of_list_ascii s)) blobs.
Proof.
  induction blobs as [|s blobs IH]; simpl; [reflexivity|].
  rewrite dispatched_app, dispatched_blob, IH.
  now destruct (parse (string_of_list_ascii s)).
Qed.

(** The loop of the driver is the chunk-wise feeding of the extractor,
    each extracted text being handled as it comes. *)
Lemma stream_loop_feed chunks buffer trace :
  stream_loop parse reg mode on_result chunks buffer trace
  = (trace ++ flat_map blob (fst (feed chunks buffer [])),
     snd (feed chunks buffer [])).
Proof.
  revert buffer trace; induction chunks as [|chunk chunks IH];
    intros buffer trace; simpl.
  - now rewrite app_nil_r.
  - destruct (extract_complete_json_values (buffer ++ chunk))
      as [vs buffer'].
    rewrite IH, (feed_out chunks buffer' vs); simpl.
    now rewrite flat_map_app, app_assoc.
Qed.

Lemma streaming_extract chunks :
  process_streaming_response_and_execute parse reg chunks on_result mode
  = (flat_map blob (fst (extract_complete_json_values (concat chunks))),
     snd (extract_complete_json_values (concat chunks))).
Proof.
  unfold process_streaming_response_and_execute.
  rewrite stream_loop_feed, (feed_extract chunks []) by reflexivity.
  cbn [app].
  pose proof (extract_idempotent (concat chunks)) as Hid. simpl in Hid.
  rewrite Hid. cbn [flat_map]. now rewrite app_nil_r.
Qed.

End StreamingFacts.

Section StreamingClaims.
Import Extractor ExtractorSpec ExtractorFacts DispatchSpec.

Variable parse : string -> option json.
Variable reg : ToolRegistry.

(** Claim C4.  Whatever the chunks, the driver handles the completed
    values of the whole stream, each once and in order: the objects it
    dispatches are the parses of those values that parse, and the buffer
    it ends with is what extraction from the whole stream leaves.  In
    particular a value that closes on the last byte of the stream is
    dispatched, once. *)
Theorem C4_streaming_dispatches_once
        (get_chunk : list (list ascii))
        (on_result : ExecutionResult -> bool) (mode : exec_mode) :
  let completed := fst (extract_complete_json_values (concat get_chunk)) in
  let run := process_streaming_response_and_execute
               parse reg get_chunk on_result mode in
  fst run = flat_map (process_blob parse reg mode on_result) completed
  /\ dispatched (fst run)
     = omap (fun s => parse (string_of_list_ascii s)) completed
  /\ snd run = snd (extract_complete_json_values (concat get_chunk))
  /\ forall pre v obj,
       concat get_chunk = pre ++ v -> noise pre -> complete_value v = true ->
       parse (string_of_list_ascii v) = Some obj ->
       dispatched (fst run) = [obj].
Proof.
  cbv zeta. rewrite streaming_extract. cbn [fst snd].
  split; [reflexivity|]. split; [apply dispatched_blobs|].
  split; [reflexivity|].
  intros pre v obj Hcat Hpre Hv Hobj.
  rewrite dispatched_blobs, Hcat, <- (app_nil_r v).
  rewrite (extract_complete _ _ _ Hpre Hv). simpl. now rewrite Hobj.
Qed.

End StreamingClaims.

(** ** The registry *)

Section RegistryFacts.

Lemma emplace_present {V : Type} (key : string) (v : V) (m : gmap string V) :
  is_Some (m !! key) -> emplace key v m = m.
Proof. unfold emplace. now intros [w ->]. Qed.

Lemma emplace_is_Some {V : Type} (key : string) (v : V) (m : gmap string V) :
  is_Some (emplace key v m !! key).
Proof.
  unfold emplace. destruct (m !! key) as [w|] eqn:H.
  - rewrite H. eauto.
  - rewrite lookup_insert_eq. eauto.
Qed.

Lemma emplace_absent {V : Type} (key : string) (v : V) (m : gmap string V) :
  m !! key = None -> emplace key v m !! key = Some v.
Proof. unfold emplace. intros ->. apply lookup_insert_eq. Qed.

Lemma register_tool_again reg name h1 s1 h2 s2 :
  register_tool (register_tool reg name h1 s1) name h2 s2
  = register_tool reg name h1 s1.
Proof.
  unfold register_tool; cbn [tools_ schemas_].
  rewrite (emplace_present name h2) by apply emplace_is_Some.
  now rewrite (emplace_present name s2) by apply emplace_is_Some.
Qed.

End RegistryFacts.

Section RegistryClaims.

(** Claim C8, amended.  Registering a name a second time changes nothing:
    the registry keeps the handler and the schema it had, so [invoke]
    runs the handler registered first. *)
Theorem C8_first_registration_is_kept
        (reg : ToolRegistry) (name : string)
        (h1 h2 : ToolHandler) (s1 s2 : json) :
  register_tool (register_tool reg name h1 s1) name h2 s2
  = register_tool reg name h1 s1
  /\ (forall args,
        invoke (register_tool (register_tool reg name h1 s1) name h2 s2)
               name args
        = invoke (register_tool reg name h1 s1) name args)
  /\ (tools_ reg !! name = None ->
      forall args,
        invoke (register_tool (register_tool reg name h1 s1) name h2 s2)
               name args
        = h1 args).
Proof.
  rewrite register_tool_again. repeat split.
  intros Hfresh args. unfold invoke, register_tool; cbn [tools_].
  now rewrite (emplace_absent _ _ _ Hfresh).
Qed.

End RegistryClaims.

(** ** The direct path *)

Section DirectFacts.
Import DirectSpec.

Variable parse : string -> option json.
Variable reg : ToolRegistry.

Lemma invoke_tool_call_once func :
  length (fst (invoke_tool_call parse reg func)) <= 1.
Proof.
  unfold invoke_tool_call.
  destruct (of_json (value_string func "name" EmptyString)); simpl; [|lia].
  destruct (of_json (value_string func "arguments" "{}")); simpl; [|lia].
  destruct (parse_json parse _); simpl; lia.
Qed.

Lemma scan_tool_calls_none tcs :
  Forall (fun tc => contains tc "function" = false) tcs ->
  scan_tool_calls parse reg tcs = None.
Proof.
  induction 1 as [|tc tcs Htc _ IH]; simpl; [reflexivity|].
  unfold contains in Htc. now destruct (member tc "function").
Qed.

Lemma scan_tool_calls_found before tc after func :
  Forall (fun tc => contains tc "function" = false) before ->
  member tc "function" = Some func ->
  scan_tool_calls parse reg (before ++ tc :: after)
  = Some (invoke_tool_call parse reg func).
Proof.
  intros Hbefore Hfunc.
  induction Hbefore as [|tc' before Htc _ IH]; simpl.
  - now rewrite Hfunc.
  - unfold contains in Htc. now destruct (member tc' "function").
Qed.

(** Either the loop over [tool_calls] returns, with at most one call of
    [invoke] made, or no element has a [function] member. *)
Lemma scan_tool_calls_cases tcs :
  (scan_tool_calls parse reg tcs = None
   /\ Forall (fun tc => contains tc "function" = false) tcs)
  \/ exists r, scan_tool_calls parse reg tcs = Some r /\ length (fst r) <= 1.
Proof.
  induction tcs as [|tc tcs IH]; simpl.
  - left. split; [reflexivity|constructor].
  - destruct (member tc "function") as [func|] eqn:Hf.
    + right. eexists; split; [reflexivity|apply invoke_tool_call_once].
    + destruct IH as [[-> Hall]|Hsome]; [left|right; exact Hsome].
      split; [reflexivity|]. constructor; [|exact Hall].
      unfold contains. now rewrite Hf.
Qed.

(** Both tests of the entry look for [message]. *)
Lemma selected_message choice :
  (if contains choice "message" then member choice "message"
   else if contains choice "message" then member choice "message"
   else None) = member choice "message".
Proof. unfold contains. now destruct (member choice "message"). Qed.

Lemma scan_choices_cons choice rest :
  scan_choices parse reg (choice :: rest)
  = match member choice "message" with
    | None => scan_choices parse reg rest
    | Some message =>
        match member message "tool_calls" with
        | Some (JArray tcs) =>
            match scan_tool_calls parse reg tcs with
            | Some r => Some r
            | None => scan_choices parse reg rest
            end
        | _ => scan_choices parse reg rest
        end
    end.
Proof. cbn [scan_choices]. now rewrite selected_message. Qed.

Lemma scan_choices_barren_cons choice rest :
  barren choice ->
  scan_choices parse reg (choice :: rest) = scan_choices parse reg rest.
Proof.
  intros Hb. rewrite scan_choices_cons.
  destruct (member choice "message") as [message|] eqn:Hm; [|reflexivity].
  destruct (member message "tool_calls") as [[| | | |tcs|]|] eqn:Ht;
    try reflexivity.
  now rewrite (scan_tool_calls_none tcs (Hb message tcs Hm Ht)).
Qed.

Lemma scan_choices_barren entries :
  Forall barren entries -> scan_choices parse reg entries = None.
Proof.
  induction 1 as [|choice rest Hb _ IH]; [reflexivity|].
  now rewrite scan_choices_barren_cons.
Qed.

Lemma scan_choices_found before choice after message tcs r :
  Forall barren before ->
  member choice "message" = Some message ->
  member message "tool_calls" = Some (JArray tcs) ->
  scan_tool_calls parse reg tcs = Some r ->
  scan_choices parse reg (before ++ choice :: after) = Some r.
Proof.
  intros Hbefore Hm Ht Hr.
  induction Hbefore as [|c before Hb _ IH]; cbn [app].
  - now rewrite scan_choices_cons, Hm, Ht, Hr.
  - now rewrite scan_choices_barren_cons.
Qed.

Lemma scan_choices_once entries r :
  scan_choices parse reg entries = Some r -> length (fst r) <= 1.
Proof.
  induction entries as [|choice rest IH]; [easy|].
  rewrite scan_choices_cons.
  destruct (member choice "message") as [message|]; [|exact IH].
  destruct (member message "tool_calls") as [[| | | |tcs|]|]; try exact IH.
  destruct (scan_tool_calls_cases tcs) as [[-> _]|(r' & -> & Hr')];
    [exact IH|].
  now intros [= <-].
Qed.

Lemma handle_no_direct_call api_response :
  no_direct_call api_response ->
  handle_tool_call_response_run parse reg api_response = ([], no_call_found).
Proof.
  intros H. unfold handle_tool_call_response_run.
  now rewrite (scan_choices_barren _ H).
Qed.

End DirectFacts.

Section DirectClaims.
Import DirectSpec.

Variable parse : string -> option json.
Variable reg : ToolRegistry.

(** Claim C9.  When the response holds no call the direct path can find,
    [handle_tool_call_response] throws [No tool call found in response]
    to its caller, without invoking any handler. *)
Theorem C9_no_call_found_is_thrown
        (api_response : json) (H : no_direct_call api_response) :
  handle_tool_call_response parse reg api_response
  = Raise (Thrown (std_exception "No tool call found in response"))
  /\ handle_tool_call_response_invocations parse reg api_response = [].
Proof.
  unfold handle_tool_call_response, handle_tool_call_response_invocations.
  now rewrite (handle_no_direct_call parse reg _ H).
Qed.

(** Claim C10, amended.  The direct path calls [invoke] at most once.
    It searches the entries in order, passing over those in which it
    finds no call, and in the first entry whose [message] has an array
    [tool_calls] with an element carrying [function] it runs the first
    such element and returns what that yields; the calls after it are
    not invoked.  A response whose entries have no [message], or a
    [message] without [tool_calls] (calls under [delta], calls in the
    [function_call] form), ends in the no-call-found failure. *)
Theorem C10_direct_path_runs_first_call (api_response : json) :
  length (handle_tool_call_response_invocations parse reg api_response) <= 1
  /\ (forall before choice after message tcs_before tc tcs_after func,
        elements (direct_entries api_response) = before ++ choice :: after ->
        Forall barren before ->
        member choice "message" = Some message ->
        member message "tool_calls"
        = Some (JArray (tcs_before ++ tc :: tcs_after)) ->
        Forall (fun tc => contains tc "function" = false) tcs_before ->
        member tc "function" = Some func ->
        handle_tool_call_response_run parse reg api_response
        = invoke_tool_call parse reg func)
  /\ ((forall choice,
         In choice (elements (direct_entries api_response)) ->
         member choice "message" = None
         \/ exists message,
              member choice "message" = Some message
              /\ member message "tool_calls" = None) ->
      handle_tool_call_response parse reg api_response = no_call_found
      /\ handle_tool_call_response_invocations parse reg api_response = []).
Proof.
  split; [|split].
  - unfold handle_tool_call_response_invocations,
      handle_tool_call_response_run.
    destruct (scan_choices parse reg _) as [r|] eqn:Hr; simpl; [|lia].
    exact (scan_choices_once parse reg _ _ Hr).
  - intros before choice after message tcs_before tc tcs_after func
           Hentries Hbefore Hm Ht Htcs Hfunc.
    unfold handle_tool_call_response_run. rewrite Hentries.
    now rewrite (scan_choices_found parse reg before choice after message _ _
                   Hbefore Hm Ht
                   (scan_tool_calls_found parse reg _ _ _ _ Htcs Hfunc)).
  - intros Hall.
    assert (Hno : no_direct_call api_response).
    { apply List.Forall_forall. intros choice Hin message tcs Hm Ht.
      destruct (Hall choice Hin) as [Hnone|(m & Hm' & Hnone)]; congruence. }
    unfold handle_tool_call_response, handle_tool_call_response_invocations.
    now rewrite (handle_no_direct_call parse reg _ Hno).
Qed.

(** Claim C7.  On the direct path the text of [arguments] is parsed
    outside any [try]: when it does not parse, the parse error leaves
    [handle_tool_call_response], and no handler is invoked.  Discovery,
    on the same response, puts the empty object in place of the
    arguments. *)
Theorem C7_direct_path_throws_parse_error
        (name arguments_text : string)
        (Hname : name <> EmptyString)
        (Hparse : parse arguments_text = None) :
  handle_tool_call_response parse reg
    (Samples.response [Samples.tool_call name arguments_text])
  = Raise (JsonError parse_error)
  /\ handle_tool_call_response_invocations parse reg
       (Samples.response [Samples.tool_call name arguments_text]) = []
  /\ discover parse (Samples.response [Samples.tool_call name arguments_text])
     = Ok [(name, JObject [])]
  /\ forall func,
       member func "arguments" = Some (JString arguments_text) ->
       parse_function_arguments parse func = JObject [].
Proof.
  assert (Hsub : forall func,
            member func "arguments" = Some (JString arguments_text) ->
            parse_function_arguments parse func = JObject []).
  { intros func Hm. unfold parse_function_arguments. now rewrite Hm, Hparse. }
  repeat (split; [|try exact Hsub]); clear Hsub.
  all: destruct name as [|c name']; [congruence|].
  all: unfold handle_tool_call_response,
         handle_tool_call_response_invocations,
         handle_tool_call_response_run, discover.
  all: cbn; unfold parse_json, parse_function_arguments; cbn.
  all: now rewrite Hparse.
Qed.

End DirectClaims.

(** ** The scenarios of the test suite, run on the model *)

Module Scenarios.
Import Chars Extractor ExtractorSpec DispatchSpec Samples.

Example extract_one_value :
  extract_complete_json_values (text "xx {'a':[1,2]} yy")
  = ([text "{'a':[1,2]}"], text " yy").
Proof. reflexivity. Qed.

Example extract_brace_in_string :
  extract_complete_json_values (text "{'a':'}\'}'}[1]{")
  = ([text "{'a':'}\'}'}"; text "[1]"], text "{").
Proof. reflexivity. Qed.

Example echo_is_executed :
  process_remote_response_and_execute parse registry echo_response sequential
  = Ok [echo_result].
Proof. vm_compute. reflexivity. Qed.

Example bad_is_reported :
  process_remote_response_and_execute parse registry
    (response [tool_call "bad" "{}"]) (concurrent [0])
  = Ok [failed ("bad", JObject []) (std_exception "fail")].
Proof. vm_compute. reflexivity. Qed.

Example calls_in_discovery_order :
  map tool_name
      (match process_remote_response_and_execute parse registry
               ordered_response (concurrent [3; 1]) with
       | Ok outs => outs
       | Raise _ => []
       end)
  = ["a"; "b"; "c"; "d"].
Proof. vm_compute. reflexivity. Qed.

Example malformed_entry_throws :
  process_remote_response_and_execute parse registry
    (response [named "a"; JNumber 1]) sequential
  = Raise (JsonError (type_error 306)).
Proof. vm_compute. reflexivity. Qed.

Example streaming_in_pieces_of_five :
  fst (process_streaming_response_and_execute parse registry
         (get_chunk 5 echo_response_text) (fun _ => true) sequential)
  = [Dispatched echo_response; Delivered echo_result].
Proof. vm_compute. reflexivity. Qed.

Example direct_path_echo :
  handle_tool_call_response parse registry echo_response
  = Ok (JObject [("echoed", JString "hi")]).
Proof. vm_compute. reflexivity. Qed.

End Scenarios.

(** ** The theorems at concrete inputs *)

Section Instances.
Import Chars Extractor ExtractorSpec DispatchSpec DirectSpec Samples.

(** C1 on the response of the echo test. *)
Lemma C1_witness :
  process_remote_response_and_execute parse registry echo_response
    (concurrent [0]) = Ok [echo_result]
  /\ (map call_of [echo_result] = discovery_order parse echo_response
      /\ process_remote_response_and_execute parse registry echo_response
           sequential = Ok [echo_result]
      /\ forall finish_order,
           process_remote_response_and_execute parse registry echo_response
             (concurrent finish_order) = Ok [echo_result]).
Proof.
  split; [vm_compute; reflexivity|].
  apply (C1_results_in_discovery_order parse registry echo_response
           (concurrent [0]) [echo_result]).
  vm_compute; reflexivity.
Defined.

(** C2 on a response whose first call fails. *)
Lemma C2_witness :
  discover parse mixed_response = Ok mixed_calls
  /\ exists outs,
       process_remote_response_and_execute parse registry mixed_response
         (concurrent [2; 0]) = Ok outs
       /\ length outs = length mixed_calls
       /\ (forall i c,
             mixed_calls !! i = Some c ->
             exists r,
               outs !! i = Some r
               /\ forall mode', execute registry mode' [c] = [r])
       /\ (forall i c t,
             mixed_calls !! i = Some c ->
             invoke registry (fst c) (snd c) = Raise t ->
             outs !! i = Some (failed c t))
       /\ (forall i c,
             mixed_calls !! i = Some c ->
             outs !! i = Some (reported c (invoke registry (fst c) (snd c))))
       /\ (forall i c handler,
             mixed_calls !! i = Some c ->
             tools_ registry !! fst c = Some handler ->
             outs !! i = Some (reported c (handler (snd c))))
       /\ (forall i c,
             mixed_calls !! i = Some c ->
             tools_ registry !! fst c = None ->
             outs !! i
             = Some (failed c (std_exception ("Tool not found: " ++ fst c)))).
Proof.
  split; [vm_compute; reflexivity|].
  apply (C2_failures_are_isolated parse registry mixed_response
           (concurrent [2; 0]) mixed_calls).
  vm_compute; reflexivity.
Defined.

(** C3 on the call of [ghost]. *)
Lemma C3_witness :
  (exists outs,
     process_remote_response_and_execute parse registry mixed_response
       sequential = Ok outs
     /\ outs !! 2 = Some {| tool_name := "ghost"; arguments := JObject [];
                            result := JNull;
                            error := "Tool not found: ghost" |})
  /\ "Tool not found: ghost"%string <> EmptyString
  /\ invoke registry "ghost" (JObject [])
     = Raise (std_exception "Tool not found: ghost").
Proof.
  apply (C3_unregistered_handler parse registry mixed_response sequential
           mixed_calls 2 "ghost" (JObject []));
    vm_compute; reflexivity.
Defined.

(** C4 on the payload of the streaming test, in pieces of five bytes: it
    closes on the last byte of the stream. *)
Lemma C4_witness :
  dispatched
    (fst (process_streaming_response_and_execute parse registry
            (get_chunk 5 echo_response_text) (fun _ => true) sequential))
  = [echo_response].
Proof.
  apply (C4_streaming_dispatches_once parse registry
           (get_chunk 5 echo_response_text) (fun _ => true) sequential)
    with (pre := []) (v := echo_response_text).
  - vm_compute; reflexivity.
  - constructor.
  - vm_compute; reflexivity.
  - vm_compute; reflexivity.
Defined.



(** C7 on a call of [echo] whose arguments are not JSON. *)
Lemma C7_witness :
  handle_tool_call_response parse registry
    (response [tool_call "echo" "not json"])
  = Raise (JsonError parse_error)
  /\ handle_tool_call_response_invocations parse registry
       (response [tool_call "echo" "not json"]) = []
  /\ discover parse (response [tool_call "echo" "not json"])
     = Ok [("echo", JObject [])]
  /\ forall func,
       member func "arguments" = Some (JString "not json") ->
       parse_function_arguments parse func = JObject [].
Proof.
  apply (C7_direct_path_throws_parse_error parse registry "echo" "not json").
  - discriminate.
  - vm_compute; reflexivity.
Defined.

(** C8: registering [echo] again, with another handler, changes nothing. *)
Lemma C8_witness :
  tools_ empty_registry !! "echo" = None
  /\ invoke (register_tool
               (register_tool empty_registry "echo" echo JNull)
               "echo" shout JNull) "echo" hi_args
     = echo hi_args.
Proof.
  split; [vm_compute; reflexivity|].
  destruct (C8_first_registration_is_kept empty_registry "echo" echo shout
              JNull JNull) as (_ & _ & Hfirst).
  apply Hfirst. vm_compute; reflexivity.
Defined.

(** The claim of C8 as it is stated fails: after a second registration
    [invoke] does not run the second handler, and the stored schema is
    the first one. *)
Lemma C8_counterexample :
  invoke (register_tool registry "echo" shout JNull) "echo" hi_args
  <> shout hi_args
  /\ schemas_ (register_tool registry "echo" shout JNull) !! "echo"
     <> Some JNull.
Proof. split; vm_compute; discriminate. Qed.

(** C9 on a response whose calls are under [delta] and in the
    [function_call] form. *)
Lemma C9_witness :
  handle_tool_call_response parse registry delta_response
  = Raise (Thrown (std_exception "No tool call found in response"))
  /\ handle_tool_call_response_invocations parse registry delta_response = [].
Proof.
  apply (C9_no_call_found_is_thrown parse registry delta_response).
  repeat constructor; intros message tcs Hm Ht;
    vm_compute in Hm; try discriminate.
  injection Hm as <-. vm_compute in Ht. discriminate.
Defined.

(** C10 on a response whose first entry has a [message] without calls. *)
Lemma C10_witness :
  handle_tool_call_response_run parse registry late_call_response
  = invoke_tool_call parse registry echo_function.
Proof.
  destruct (C10_direct_path_runs_first_call parse registry
              late_call_response) as (_ & Hfirst & _).
  apply Hfirst
    with (before := [JObject [("message", JObject [])]])
         (choice := JObject [("message",
                      JObject [("tool_calls",
                                JArray [tool_call "echo" hi_text])])])
         (after := []) (tcs_before := []) (tcs_after := [])
         (tc := tool_call "echo" hi_text)
         (message := JObject [("tool_calls",
                               JArray [tool_call "echo" hi_text])]).
  - vm_compute; reflexivity.
  - repeat constructor. intros message tcs Hm Ht.
    vm_compute in Hm. injection Hm as <-. vm_compute in Ht. discriminate.
  - vm_compute; reflexivity.
  - vm_compute; reflexivity.
  - constructor.
  - vm_compute; reflexivity.
Defined.

(** The claim of C10 as it is stated fails: the call that is run is not
    under the first entry that has a [message]. *)
Lemma C10_counterexample :
  claimed_function late_call_response = None
  /\ handle_tool_call_response parse registry late_call_response
     = Ok (JObject [("echoed", JString "hi")])
  /\ handle_tool_call_response parse registry late_call_response
     <> claimed_handle_tool_call_response parse registry late_call_response.
Proof.
  split; [vm_compute; reflexivity|].
  split; [vm_compute; reflexivity|].
  vm_compute. discriminate.
Qed.

End Instances.

(** * Further properties *)

(** ** The extractor: shape of the extracted texts *)

Module ExtractorShape.
Import Chars Extractor ExtractorSpec ExtractorFacts MoreSpec.

(** The loop is left only on the closer, outside a string, at depth 1. *)
Lemma scan_char_closed opener closer st c :
  scan_char opener closer st c = Closed ->
  c = closer /\ in_string st = false /\ depth st = 1%Z.
Proof.
  unfold scan_char.
  destruct (in_string st).
  - destruct (escape st); [easy|].
    destruct (Ascii.eqb c backslash); [easy|].
    now destruct (Ascii.eqb c dquote).
  - destruct (Ascii.eqb c dquote); [easy|].
    destruct (Ascii.eqb c opener); [easy|].
    destruct (Ascii.eqb c closer) eqn:Hc; [|easy].
    destruct (Z.eqb_spec (depth st - 1) 0); [|easy].
    intros _. apply Ascii.eqb_eq in Hc. repeat split; auto. lia.
Qed.

Lemma scan_char_depth opener closer st c st' :
  scan_char opener closer st c = Continue st' ->
  (1 <= depth st)%Z ->
  (1 <= depth st' <= depth st + 1)%Z.
Proof.
  unfold scan_char.
  destruct (in_string st).
  - destruct (escape st); [intros [= <-]; simpl; lia|].
    destruct (Ascii.eqb c backslash); [intros [= <-]; simpl; lia|].
    destruct (Ascii.eqb c dquote); intros [= <-]; simpl; lia.
  - destruct (Ascii.eqb c dquote); [intros [= <-]; simpl; lia|].
    destruct (Ascii.eqb c opener); [intros [= <-]; simpl; lia|].
    destruct (Ascii.eqb c closer); [|intros [= <-]; lia].
    destruct (Z.eqb_spec (depth st - 1) 0); [easy|].
    intros [= <-]; simpl; lia.
Qed.

Lemma opener_cases o :
  is_opener o = true -> o = lbrace \/ o = lbracket.
Proof.
  unfold is_opener. intros H. apply orb_true_iff in H as [H|H];
    apply Ascii.eqb_eq in H; auto.
Qed.

(** The scan reads its opener first: the depth becomes 1. *)
Lemma scan_char_opener o :
  is_opener o = true ->
  scan_char o (closer_of o) scan_init o
  = Continue {| depth := 1; in_string := false; escape := false |}.
Proof. intros H. now destruct (opener_cases o H) as [-> | ->]. Qed.

Lemma scan_locals_depth opener closer st rest st' :
  scan_locals opener closer st rest = Some st' ->
  (1 <= depth st)%Z ->
  (1 <= depth st' <= depth st + Z.of_nat (length rest))%Z.
Proof.
  revert st; induction rest as [|c rest IH]; intros st; simpl.
  - intros [= <-]. lia.
  - destruct (scan_char opener closer st c) as [st1|] eqn:Hc; [|easy].
    intros Hrest Hst. pose proof (scan_char_depth _ _ _ _ _ Hc Hst).
    apply IH in Hrest; lia.
Qed.

(** The bytes up to the closing one are all the scan needs. *)
Lemma scan_take opener closer st rest i e :
  scan opener closer st rest i = Some e ->
  scan opener closer st (take (e - i) rest) i = Some e.
Proof.
  revert st i; induction rest as [|c rest IH]; intros st i; simpl; [easy|].
  destruct (scan_char opener closer st c) as [st'|] eqn:Hc.
  - intros H. pose proof (scan_bounds _ _ _ _ _ _ H) as Hb.
    replace (e - i) with (S (e - S i)) by lia. simpl. rewrite Hc. now apply IH.
  - intros [= <-]. replace (S i - i) with 1 by lia. simpl. now rewrite Hc.
Qed.

(** The byte on which the scan closes is the closer. *)
Lemma scan_last opener closer st rest i e :
  scan opener closer st rest i = Some e ->
  exists pre, take (e - i) rest = pre ++ [closer] /\ length pre = e - i - 1.
Proof.
  revert st i; induction rest as [|c rest IH]; intros st i; simpl; [easy|].
  destruct (scan_char opener closer st c) as [st'|] eqn:Hc.
  - intros H. pose proof (scan_bounds _ _ _ _ _ _ H) as Hb.
    destruct (IH _ _ H) as (pre & Hpre & Hlen).
    exists (c :: pre). replace (e - i) with (S (e - S i)) by lia. simpl.
    rewrite Hpre. split; [reflexivity|lia].
  - intros [= <-]. apply scan_char_closed in Hc as (-> & _).
    exists []. replace (S i - i) with 1 by lia. simpl. now rewrite take_0.
Qed.

(** What the outer loop finds: noise, then a complete value, then the
    bytes it keeps. *)
Lemma first_value_split buffer s e :
  first_value buffer = Some (s, e) ->
  exists pre v post,
    buffer = pre ++ v ++ post /\ noise pre /\ length pre = s
    /\ v = take (e - s) (drop s buffer) /\ post = drop e buffer
    /\ complete_value v = true.
Proof.
  intros Hfv. pose proof (first_value_bounds _ _ _ Hfv) as Hb.
  unfold first_value in Hfv.
  destruct (Nat.leb_spec (length buffer) (skip_noise buffer 0)) as [|Hlt];
    [easy|].
  destruct (skip_noise_split buffer Hlt)
    as (pre & o & post0 & -> & Hpre & Ho & Hlen).
  rewrite Hlen in Hfv.
  rewrite app_nth2, Nat.sub_diag in Hfv by lia.
  rewrite drop_app_length in Hfv.
  change (nth 0 (o :: post0) lbrace) with o in Hfv.
  destruct (scan o _ _ _ _) as [e'|] eqn:Hscan; [|easy].
  injection Hfv as <- <-.
  pose proof (scan_bounds _ _ _ _ _ _ Hscan) as Hbs.
  pose proof (scan_take _ _ _ _ _ _ Hscan) as Htake.
  rewrite scan_shift in Htake.
  destruct (scan o (closer_of o) scan_init (take (e' - length pre) (o :: post0)) 0)
    as [n|] eqn:Hn; [|easy].
  injection Htake as Htake.
  exists pre, (take (e' - length pre) (o :: post0)),
         (drop (e' - length pre) (o :: post0)).
  rewrite take_drop, drop_app_length.
  repeat split; auto.
  - replace e' with (length pre + (e' - length pre)) at 2 by lia.
    now rewrite drop_app_add.
  - destruct (e' - length pre) as [|k] eqn:Hk; [lia|].
    assert (Hlenv : length (take (S k) (o :: post0)) = S k).
    { rewrite length_take. simpl in Hbs |- *. lia. }
    cbn [take] in *. unfold complete_value. rewrite Ho. cbn [andb].
    apply bool_decide_eq_true. rewrite Hn, Hlenv. f_equal. lia.
Qed.

Lemma complete_bracketed v :
  complete_value v = true -> bracketed v.
Proof.
  destruct v as [|o v]; [easy|]. unfold complete_value.
  intros H. apply andb_true_iff in H as [Ho Hscan].
  apply bool_decide_eq_true in Hscan.
  destruct (scan_last _ _ _ _ _ _ Hscan) as (pre & Hpre & Hlen).
  rewrite Nat.sub_0_r, firstn_all in Hpre.
  destruct pre as [|o' pre].
  - injection Hpre as -> ->. cbn [scan] in Hscan.
    now rewrite (scan_char_opener _ Ho) in Hscan.
  - injection Hpre as <- ->. exists o, pre. auto.
Qed.

Lemma extract_complete_values buffer :
  Forall (fun v => complete_value v = true)
         (fst (extract_complete_json_values buffer)).
Proof.
  induction buffer as [buffer IH] using (induction_ltof1 _ (@length ascii)).
  unfold ltof in IH. rewrite extract_eq.
  destruct (first_value buffer) as [[s e]|] eqn:Hfv; simpl; [|constructor].
  pose proof (first_value_bounds _ _ _ Hfv) as Hb.
  destruct (first_value_split _ _ _ Hfv) as (pre & v & post & _ & _ & _ & <- & _ & Hv).
  constructor; [exact Hv|]. apply IH. rewrite length_drop. lia.
Qed.

End ExtractorShape.

Section ExtractorExtras.
Import Chars Extractor ExtractorSpec ExtractorFacts MoreSpec ExtractorShape.

(** X1.  Every text the extractor returns is a complete value: it begins
    with an opener, the scan started there closes on its last byte, and
    that byte is the closer of the same family. *)
Theorem X1_extracted_values_are_bracketed (buffer : list ascii) :
  Forall (fun v => complete_value v = true /\ bracketed v)
         (fst (extract_complete_json_values buffer)).
Proof.
  eapply Forall_impl; [apply extract_complete_values|].
  intros v Hv. split; [exact Hv|now apply complete_bracketed].
Qed.

(** X2.  The extractor neither invents nor reorders bytes: the buffer it
    was given is the returned values in order, each preceded by bytes that
    open nothing, followed by the buffer it leaves. *)
Theorem X2_buffer_is_accounted_for (buffer : list ascii) :
  exists noises,
    length noises = length (fst (extract_complete_json_values buffer))
    /\ Forall noise noises
    /\ buffer = interleave noises (fst (extract_complete_json_values buffer))
                ++ snd (extract_complete_json_values buffer).
Proof.
  induction buffer as [buffer IH] using (induction_ltof1 _ (@length ascii)).
  unfold ltof in IH. rewrite extract_eq.
  destruct (first_value buffer) as [[s e]|] eqn:Hfv; simpl.
  - pose proof (first_value_bounds _ _ _ Hfv) as Hb.
    destruct (first_value_split _ _ _ Hfv)
      as (pre & v & post & Hbuf & Hpre & _ & Hv & Hdrop & _).
    rewrite <- Hv, <- Hdrop.
    destruct (IH post) as (noises & Hlen & Hnoise & Hpost).
    { rewrite Hdrop, length_drop. lia. }
    exists (pre :: noises). split; [simpl; congruence|].
    split; [constructor; assumption|].
    unfold interleave in *. simpl. rewrite <- !app_assoc, <- Hpost.
    exact Hbuf.
  - exists []. repeat split; constructor.
Qed.

(** X3.  While a value is scanned from its opener the depth never drops
    below 1 and never exceeds the number of bytes read. *)
Theorem X3_depth_stays_positive
        (opener : ascii) (text : list ascii) (st : scan_state)
        (Ho : is_opener opener = true)
        (Hst : scan_locals opener (closer_of opener) scan_init (opener :: text)
               = Some st) :
  (1 <= depth st <= Z.of_nat (length (opener :: text)))%Z.
Proof.
  cbn [scan_locals] in Hst. rewrite (scan_char_opener _ Ho) in Hst.
  apply scan_locals_depth in Hst; simpl in *; lia.
Qed.

(** X4.  Calling the extractor again without new data returns nothing and
    leaves the buffer as it is. *)
Theorem X4_second_call_finds_nothing (buffer : list ascii) :
  extract_complete_json_values (snd (extract_complete_json_values buffer))
  = ([], snd (extract_complete_json_values buffer)).
Proof.
  rewrite (extract_eq (snd (extract_complete_json_values buffer))).
  now rewrite extract_rest.
Qed.

End ExtractorExtras.

(** ** The streaming driver: chunking and delivery *)

Section StreamingExtras.
Import Extractor ExtractorSpec ExtractorFacts DispatchSpec MoreSpec.

Variable parse : string -> option json.
Variable reg : ToolRegistry.
Variable mode : exec_mode.

Lemma delivered_app t1 t2 : delivered (t1 ++ t2) = delivered t1 ++ delivered t2.
Proof. apply omap_app. Qed.

Lemma delivered_map rs : delivered (map Delivered rs) = rs.
Proof. induction rs; simpl; congruence. Qed.

Lemma deliver_all on_result batch :
  (forall r, on_result r = true) -> deliver on_result batch = batch.
Proof.
  intros Hok. induction batch as [|r batch IH]; simpl; [reflexivity|].
  now rewrite Hok, IH.
Qed.

Lemma delivered_blobs on_result blobs :
  (forall r, on_result r = true) ->
  delivered (flat_map (process_blob parse reg mode on_result) blobs)
  = flat_map (batch_of parse reg mode) (omap (fun s => parse (string_of_list_ascii s)) blobs).
Proof.
  intros Hok. induction blobs as [|s blobs IH]; simpl; [reflexivity|].
  rewrite delivered_app, IH. unfold process_blob, batch_of.
  destruct (parse (string_of_list_ascii s)) as [obj|]; [|reflexivity].
  cbn [flat_map]. f_equal.
  change (delivered (Dispatched obj :: ?t)) with (delivered t).
  destruct (process_remote_response_and_execute parse reg obj mode);
    [|reflexivity].
  now rewrite delivered_map, deliver_all.
Qed.

(** X5.  Only the bytes of the stream matter, not where the chunk source
    cuts them: two sources that hand out the same bytes give the same
    calls and leave the same buffer. *)
Theorem X5_chunk_boundaries_do_not_matter
        (on_result : ExecutionResult -> bool)
        (chunks1 chunks2 : list (list ascii))
        (H : concat chunks1 = concat chunks2) :
  process_streaming_response_and_execute parse reg chunks1 on_result mode
  = process_streaming_response_and_execute parse reg chunks2 on_result mode.
Proof.
  rewrite (streaming_extract parse reg mode on_result chunks1).
  rewrite (streaming_extract parse reg mode on_result chunks2).
  rewrite H. reflexivity.
Qed.

(** X6.  With a callback that returns normally, the results delivered by
    the driver are those of [process_remote_response_and_execute] on each
    dispatched object, object after object. *)
Theorem X6_streaming_delivers_each_batch
        (on_result : ExecutionResult -> bool) (chunks : list (list ascii))
        (Hok : forall r, on_result r = true) :
  delivered
    (fst (process_streaming_response_and_execute parse reg chunks on_result mode))
  = flat_map (batch_of parse reg mode)
      (dispatched
         (fst (process_streaming_response_and_execute
                 parse reg chunks on_result mode))).
Proof.
  rewrite streaming_extract. cbn [fst].
  now rewrite dispatched_blobs, delivered_blobs.
Qed.

(** X7.  A single payload, with bytes that open nothing around it and cut
    into chunks in any way, gives through the driver the results of the
    non-streaming call on its parse; the bytes after it stay in the
    buffer. *)
Theorem X7_streaming_agrees_with_direct_call
        (on_result : ExecutionResult -> bool) (chunks : list (list ascii))
        (pre v post : list ascii) (obj : json) (batch : list ExecutionResult)
        (Hok : forall r, on_result r = true)
        (Hcat : concat chunks = pre ++ v ++ post)
        (Hpre : noise pre) (Hpost : noise post)
        (Hv : complete_value v = true)
        (Hobj : parse (string_of_list_ascii v) = Some obj)
        (Hbatch : process_remote_response_and_execute parse reg obj mode
                  = Ok batch) :
  fst (process_streaming_response_and_execute parse reg chunks on_result mode)
  = Dispatched obj :: map Delivered batch
  /\ snd (process_streaming_response_and_execute parse reg chunks on_result mode)
     = post.
Proof.
  rewrite streaming_extract, Hcat, (extract_complete _ _ _ Hpre Hv).
  rewrite (extract_noise _ Hpost). cbn [fst snd flat_map].
  unfold process_blob. rewrite Hobj, Hbatch, app_nil_r.
  now rewrite deliver_all.
Qed.

End StreamingExtras.

(** ** Discovery and dispatch: names, failures, empty responses *)

Section DiscoveryMoreFacts.
Import DispatchSpec MoreSpec.

Variable parse : string -> option json.

Local Abbreviation named := (fun c : call => fst c <> EmptyString).

Lemma collect_call_named func out out' :
  collect_call parse func out = Ok out' ->
  Forall named out -> Forall named out'.
Proof.
  unfold collect_call.
  destruct (value_string func "name" EmptyString) as [e|name]; simpl; [easy|].
  destruct (String.eqb_spec name EmptyString) as [|Hne]; simpl;
    intros [= <-]; [easy|].
  intros Hout. apply Forall_app. split; [exact Hout|]. now repeat constructor.
Qed.

Lemma collect_call_failure func out e :
  collect_call parse func out = Raise e -> discovery_failure e.
Proof.
  unfold collect_call, value_string, discovery_failure.
  destruct func as [| | | | |members]; simpl; try (intros [= <-]; auto).
  destruct (find_member "name" members) as [[| | |name| |]|]; simpl;
    try (intros [= <-]; auto).
  now destruct (String.eqb name EmptyString).
Qed.

Lemma collect_tool_calls_list_named tcs out out' :
  collect_tool_calls_list parse tcs out = Ok out' ->
  Forall named out -> Forall named out'.
Proof.
  revert out; induction tcs as [|tc tcs IH]; intros out; simpl.
  - now intros [= <-].
  - destruct (collect_call parse _ out) as [out1|e] eqn:H1; simpl; [|easy].
    intros H2 Hout. eapply IH; [exact H2|].
    eapply collect_call_named; eauto.
Qed.

Lemma collect_tool_calls_list_failure tcs out e :
  collect_tool_calls_list parse tcs out = Raise e -> discovery_failure e.
Proof.
  revert out; induction tcs as [|tc tcs IH]; intros out; simpl; [easy|].
  destruct (collect_call parse _ out) as [out1|e1] eqn:H1; simpl.
  - apply IH.
  - intros [= <-]. eapply collect_call_failure; eauto.
Qed.

Lemma collect_tool_calls_from_node_named node out out' :
  collect_tool_calls_from_node parse node out = Ok out' ->
  Forall named out -> Forall named out'.
Proof.
  unfold collect_tool_calls_from_node. intros H Hout.
  destruct (match member node "tool_calls" with
            | Some (JArray tcs) => collect_tool_calls_list parse tcs out
            | _ => Ok out end) as [out1|e] eqn:H1; simpl in H; [|easy].
  assert (Hout1 : Forall named out1).
  { destruct (member node "tool_calls") as [[| | | |tcs|]|];
      try (injection H1 as <-; exact Hout).
    eapply collect_tool_calls_list_named; eauto. }
  destruct (member node "function_call") as [[| | | | |fc]|];
    try (injection H as <-; exact Hout1).
  eapply collect_call_named; eauto.
Qed.

Lemma collect_tool_calls_from_node_failure node out e :
  collect_tool_calls_from_node parse node out = Raise e -> discovery_failure e.
Proof.
  unfold collect_tool_calls_from_node. intros H.
  destruct (match member node "tool_calls" with
            | Some (JArray tcs) => collect_tool_calls_list parse tcs out
            | _ => Ok out end) as [out1|e1] eqn:H1; simpl in H.
  - destruct (member node "function_call") as [[| | | | |fc]|]; try easy.
    eapply collect_call_failure; eauto.
  - injection H as <-.
    destruct (member node "tool_calls") as [[| | | |tcs|]|]; try easy.
    eapply collect_tool_calls_list_failure; eauto.
Qed.

Lemma collect_tool_calls_from_node_none node out :
  no_call_fields node -> collect_tool_calls_from_node parse node out = Ok out.
Proof.
  intros [Htc Hfc]. unfold collect_tool_calls_from_node.
  destruct (member node "tool_calls") as [[| | | |tcs|]|]; simpl;
    try (now destruct (Htc tcs));
    destruct (member node "function_call") as [[| | | | |fc]|];
    try reflexivity; now destruct (Hfc fc).
Qed.

Lemma discover_loop_named entries calls calls' :
  discover_loop parse entries calls = Ok calls' ->
  Forall named calls -> Forall named calls'.
Proof.
  revert calls; induction entries as [|entry entries IH]; intros calls; simpl.
  - now intros [= <-].
  - destruct (collect_tool_calls_from_node parse _ calls) as [calls1|e] eqn:H1;
      simpl; [|easy].
    intros H2 Hc. eapply IH; [exact H2|].
    eapply collect_tool_calls_from_node_named; eauto.
Qed.

Lemma discover_loop_failure entries calls e :
  discover_loop parse entries calls = Raise e -> discovery_failure e.
Proof.
  revert calls; induction entries as [|entry entries IH]; intros calls; simpl;
    [easy|].
  destruct (collect_tool_calls_from_node parse _ calls) as [calls1|e1] eqn:H1;
    simpl.
  - apply IH.
  - intros [= <-]. eapply collect_tool_calls_from_node_failure; eauto.
Qed.

Lemma discover_loop_none entries calls :
  Forall (fun entry => no_call_fields (spec_node entry)) entries ->
  discover_loop parse entries calls = Ok calls.
Proof.
  induction 1 as [|entry entries Hn _ IH]; simpl; [reflexivity|].
  rewrite pick_message_like_spec.
  now rewrite (collect_tool_calls_from_node_none _ _ Hn).
Qed.

End DiscoveryMoreFacts.

Section DiscoveryExtras.
Import DispatchSpec MoreSpec.

Variable parse : string -> option json.
Variable reg : ToolRegistry.

(** X8.  Every result the function returns carries a non-empty
    [tool_name]: an embedded call without a name, or with an empty one,
    is skipped. *)
Theorem X8_results_have_names
        (api_response : json) (mode : exec_mode) (outs : list ExecutionResult)
        (H : process_remote_response_and_execute parse reg api_response mode
             = Ok outs) :
  Forall (fun r => tool_name r <> EmptyString) outs.
Proof.
  destruct (discover parse api_response) as [calls|e] eqn:Hd.
  - rewrite (process_discovered parse reg _ mode _ Hd) in H. injection H as <-.
    assert (Hnamed : Forall (fun c : call => fst c <> EmptyString) calls).
    { eapply discover_loop_named; [exact Hd|constructor]. }
    apply Forall_fmap. eapply Forall_impl; [exact Hnamed|].
    intros c Hc. simpl.
    change (tool_name (run_call reg c)) with (fst (call_of (run_call reg c))).
    now rewrite call_of_run_call.
  - unfold process_remote_response_and_execute in H. now rewrite Hd in H.
Qed.

(** X9.  The only exceptions that leave
    [process_remote_response_and_execute] are the type errors 302 and 306
    of the JSON library, raised while reading a name; no parse error and
    nothing a handler throws leaves it. *)
Theorem X9_only_type_errors_escape
        (api_response : json) (mode : exec_mode) (e : failure)
        (H : process_remote_response_and_execute parse reg api_response mode
             = Raise e) :
  discovery_failure e.
Proof.
  unfold process_remote_response_and_execute in H.
  destruct (discover parse api_response) as [calls|e'] eqn:Hd; [easy|].
  injection H as <-. eapply discover_loop_failure; exact Hd.
Qed.

(** X10.  A response in which no message-like node has a [tool_calls]
    array or a [function_call] object yields the empty list, in any mode,
    and no exception. *)
Theorem X10_no_call_fields_no_results
        (api_response : json) (mode : exec_mode)
        (H : Forall (fun entry => no_call_fields (spec_node entry))
                    (spec_entries api_response)) :
  process_remote_response_and_execute parse reg api_response mode = Ok [].
Proof.
  rewrite <- remote_entries_spec in H.
  rewrite (process_discovered parse reg _ mode []); [reflexivity|].
  now apply discover_loop_none.
Qed.

(** X11.  Each returned result reports what [invoke] does on its own name
    and arguments: the value and an empty [error] when it returns, a null
    [result] and the description of the failure when it throws. *)
Theorem X11_results_report_invoke
        (api_response : json) (mode : exec_mode) (outs : list ExecutionResult)
        (H : process_remote_response_and_execute parse reg api_response mode
             = Ok outs) :
  Forall (fun r =>
            match invoke reg (tool_name r) (arguments r) with
            | Ok v => result r = v /\ error r = EmptyString
            | Raise t => result r = JNull /\ error r = describe t
            end) outs.
Proof.
  destruct (discover parse api_response) as [calls|e] eqn:Hd.
  - rewrite (process_discovered parse reg _ mode _ Hd) in H. injection H as <-.
    apply Forall_fmap, Forall_forall. intros [name args] _. simpl.
    unfold run_call. simpl.
    destruct (invoke reg name args) as [v|[what|]] eqn:Hi; simpl;
      rewrite Hi; auto.
  - unfold process_remote_response_and_execute in H. now rewrite Hd in H.
Qed.

End DiscoveryExtras.

(** ** The registry: registration, listing of the schemas *)

Section RegistryMoreFacts.
Import MoreSpec.

Lemma emplace_other {V : Type} (key other : string) (v : V) (m : gmap string V) :
  other <> key -> emplace key v m !! other = m !! other.
Proof.
  intros Hne. unfold emplace. destruct (m !! key); [reflexivity|].
  now rewrite lookup_insert_ne.
Qed.

Lemma emplace_is_Some_iff {V : Type} (key other : string) (v : V)
      (m : gmap string V) :
  is_Some (emplace key v m !! other) <-> other = key \/ is_Some (m !! other).
Proof.
  destruct (decide (other = key)) as [->|Hne].
  - split; [auto|]. intros _. apply emplace_is_Some.
  - rewrite emplace_other by assumption.
    split; [auto | intros [?|?]; [contradiction|assumption]].
Qed.

Lemma emplace_lookup {V : Type} (key other : string) (v w : V)
      (m : gmap string V) :
  emplace key v m !! other = Some w ->
  m !! other = Some w \/ (other = key /\ w = v).
Proof.
  unfold emplace. destruct (m !! key) eqn:Hk; [auto|].
  destruct (decide (other = key)) as [->|Hne].
  - rewrite lookup_insert_eq. intros [= <-]. auto.
  - rewrite lookup_insert_ne by auto. auto.
Qed.

Lemma key_le_total : Total key_le.
Proof. intros a b. unfold key_le. apply String.leb_total. Qed.

Lemma foldl_push_back (acc : list json) (l : list (string * json)) :
  foldl (fun arr entry => arr ++ [snd entry]) acc l = acc ++ map snd l.
Proof.
  revert acc; induction l as [|e l IH]; intros acc; simpl.
  - now rewrite app_nil_r.
  - now rewrite IH, <- app_assoc.
Qed.

Lemma invoke_same_tools reg1 reg2 name args :
  tools_ reg1 = tools_ reg2 -> invoke reg1 name args = invoke reg2 name args.
Proof. intros H. unfold invoke. now rewrite H. Qed.

Lemma run_call_same_tools reg1 reg2 c :
  tools_ reg1 = tools_ reg2 -> run_call reg1 c = run_call reg2 c.
Proof.
  intros H. unfold run_call. now rewrite (invoke_same_tools _ _ _ _ H).
Qed.

End RegistryMoreFacts.

Section RegistryExtras.
Import MoreSpec.

(** X12.  The schemas play no part in execution: two registries with the
    same handlers give the same results, and the same outcome on the
    direct path, whatever schemas they store. *)
Theorem X12_schemas_are_not_consulted
        (parse : string -> option json) (reg1 reg2 : ToolRegistry)
        (api_response : json) (mode : exec_mode)
        (H : tools_ reg1 = tools_ reg2) :
  process_remote_response_and_execute parse reg1 api_response mode
  = process_remote_response_and_execute parse reg2 api_response mode
  /\ handle_tool_call_response_run parse reg1 api_response
     = handle_tool_call_response_run parse reg2 api_response.
Proof.
  split.
  - unfold process_remote_response_and_execute.
    destruct (discover parse api_response) as [calls|e]; cbn [bind];
      [|reflexivity].
    rewrite !execute_map. f_equal. apply map_ext. intros c.
    now apply run_call_same_tools.
  - unfold handle_tool_call_response_run.
    assert (Hcall : forall func,
              invoke_tool_call parse reg1 func = invoke_tool_call parse reg2 func).
    { intros func. unfold invoke_tool_call.
      destruct (of_json (value_string func "name" EmptyString)); [|reflexivity].
      destruct (of_json (value_string func "arguments" "{}")); [|reflexivity].
      destruct (parse_json parse _); [|reflexivity].
      now rewrite (invoke_same_tools _ _ _ _ H). }
    assert (Htcs : forall tcs,
              scan_tool_calls parse reg1 tcs = scan_tool_calls parse reg2 tcs).
    { induction tcs as [|tc tcs IH]; simpl; [reflexivity|].
      destruct (member tc "function"); [now rewrite Hcall|exact IH]. }
    assert (Hch : forall entries,
              scan_choices parse reg1 entries = scan_choices parse reg2 entries).
    { induction entries as [|choice rest IH]; [reflexivity|].
      rewrite !scan_choices_cons, IH.
      destruct (member choice "message") as [message|]; [|reflexivity].
      destruct (member message "tool_calls") as [[| | | |tcs|]|];
        try reflexivity.
      now rewrite Htcs. }
    now rewrite Hch.
Qed.

(** X13.  Registering a name the registry does not have makes [invoke]
    run the new handler under that name and stores the schema; every other
    name keeps its handler and its schema. *)
Theorem X13_fresh_registration
        (reg : ToolRegistry) (name : string) (h : ToolHandler) (s : json)
        (Hfresh : tools_ reg !! name = None)
        (Hschema : schemas_ reg !! name = None) :
  (forall args, invoke (register_tool reg name h s) name args = h args)
  /\ schemas_ (register_tool reg name h s) !! name = Some s
  /\ (forall other args,
        other <> name ->
        invoke (register_tool reg name h s) other args = invoke reg other args)
  /\ (forall other,
        other <> name ->
        schemas_ (register_tool reg name h s) !! other = schemas_ reg !! other).
Proof.
  unfold invoke, register_tool; cbn [tools_ schemas_].
  split; [|split; [|split]].
  - intros args. now rewrite (emplace_absent _ _ _ Hfresh).
  - now apply emplace_absent.
  - intros other args Hne. now rewrite emplace_other.
  - intros other Hne. now apply emplace_other.
Qed.

(** X14.  In a registry built by registrations from the empty one, the
    handlers and the schemas are stored under the same names: a name can
    be invoked exactly when it has a schema. *)
Theorem X14_handlers_and_schemas_share_names
        (l : list (string * ToolHandler * json)) (name : string) :
  is_Some (tools_ (register_all empty_registry l) !! name)
  <-> is_Some (schemas_ (register_all empty_registry l) !! name).
Proof.
  unfold register_all.
  assert (Hinit : forall n, is_Some (tools_ empty_registry !! n)
                            <-> is_Some (schemas_ empty_registry !! n)).
  { intros n. simpl. rewrite !lookup_empty. split; intros [? [=]]. }
  revert Hinit. generalize empty_registry. revert name.
  induction l as [|[[n h] s] l IH]; intros name reg Hreg; simpl; [apply Hreg|].
  apply IH. intros k. unfold register_tool; cbn [tools_ schemas_].
  rewrite !emplace_is_Some_iff, Hreg. reflexivity.
Qed.

(** X15.  In a registry built from tool specifications, every stored
    schema is an object whose [name] member is the name under which it is
    stored. *)
Theorem X15_spec_schemas_carry_their_name
        (specs : list Specs.ToolSpec) (key : string) (schema : json)
        (H : schemas_ (register_specs empty_registry specs) !! key
             = Some schema) :
  member schema "name" = Some (JString key).
Proof.
  revert H. unfold register_specs.
  assert (Hinit : forall k v, schemas_ empty_registry !! k = Some v ->
                              member v "name" = Some (JString k)).
  { intros k v. simpl. now rewrite lookup_empty. }
  revert Hinit. generalize empty_registry. revert key schema.
  induction specs as [|spec specs IH]; intros key schema reg Hreg; simpl;
    [apply Hreg|].
  apply IH. intros k v Hk.
  unfold register_tool_spec, register_tool in Hk; cbn [schemas_] in Hk.
  apply emplace_lookup in Hk as [Hk|[-> ->]]; [now apply Hreg|reflexivity].
Qed.

(** X16.  [schemas()] returns an array that holds each stored schema once,
    in ascending order of the names: it has as many elements as there are
    names, and its elements are exactly the stored schemas. *)
Theorem X16_schemas_lists_the_stored_schemas (reg : ToolRegistry) :
  schemas reg = JArray (map snd (in_key_order (schemas_ reg)))
  /\ Sorted key_le (in_key_order (schemas_ reg))
  /\ length (in_key_order (schemas_ reg)) = size (schemas_ reg)
  /\ forall key schema,
       (key, schema) ∈ in_key_order (schemas_ reg)
       <-> schemas_ reg !! key = Some schema.
Proof.
  unfold schemas, in_key_order. rewrite foldl_push_back.
  split; [reflexivity|].
  split; [apply (@Sorted_merge_sort _ key_le _ key_le_total)|].
  split.
  - now rewrite merge_sort_Permutation, length_map_to_list.
  - intros key schema.
    now rewrite merge_sort_Permutation, elem_of_map_to_list.
Qed.

End RegistryExtras.

(** ** The direct path compared with discovery *)

Section DirectMoreFacts.
Import DispatchSpec DirectSpec MoreSpec.

Variable parse : string -> option json.
Variable reg : ToolRegistry.

Lemma handle_first_direct_function api_response func :
  first_direct_function api_response func ->
  handle_tool_call_response_run parse reg api_response
  = invoke_tool_call parse reg func.
Proof.
  intros (before & choice & after & message & tcs_before & tc & tcs_after
          & Hentries & Hbefore & Hm & Ht & Htcs & Hfunc).
  unfold handle_tool_call_response_run. rewrite Hentries.
  now rewrite (scan_choices_found parse reg before choice after message _ _
                 Hbefore Hm Ht
                 (scan_tool_calls_found parse reg _ _ _ _ Htcs Hfunc)).
Qed.

Lemma scan_tool_calls_some tcs r :
  scan_tool_calls parse reg tcs = Some r ->
  exists func, r = invoke_tool_call parse reg func.
Proof.
  induction tcs as [|tc tcs IH]; simpl; [easy|].
  destruct (member tc "function") as [func|]; [|exact IH].
  intros [= <-]. now exists func.
Qed.

Lemma scan_choices_some entries r :
  scan_choices parse reg entries = Some r ->
  exists func, r = invoke_tool_call parse reg func.
Proof.
  induction entries as [|choice rest IH]; [easy|].
  rewrite scan_choices_cons.
  destruct (member choice "message") as [message|]; [|exact IH].
  destruct (member message "tool_calls") as [[| | | |tcs|]|]; try exact IH.
  destruct (scan_tool_calls parse reg tcs) as [r'|] eqn:Hr; [|exact IH].
  intros [= <-]. now apply scan_tool_calls_some in Hr.
Qed.

(** A textual member read with a default. *)
Lemma value_string_member j key default s :
  member j key = Some (JString s) -> value_string j key default = inr s.
Proof.
  destruct j; simpl; try easy. now intros ->.
Qed.

Lemma value_string_not_string j key default a :
  member j key = Some a -> is_string a = false ->
  value_string j key default = inl (type_error 302).
Proof.
  destruct j; simpl; try easy. intros ->. now destruct a.
Qed.

(** With a container as response both entry points walk the same
    entries. *)
Lemma entries_agree api_response choice after :
  elements (direct_entries api_response) = choice :: after ->
  is_object choice = true ->
  elements (remote_entries api_response) = choice :: after.
Proof.
  unfold direct_entries, remote_entries, contains.
  destruct api_response as [| | | | |members]; simpl;
    try (intros [= <- <-]; easy); try easy.
  now destruct (find_member "choices" members).
Qed.

End DirectMoreFacts.

Section DirectExtras.
Import DispatchSpec DirectSpec MoreSpec.

Variable parse : string -> option json.
Variable reg : ToolRegistry.

(** X17.  When the first entry of the response has a [message] whose
    [tool_calls] begins with an element carrying [function], with a
    non-empty name and textual arguments that parse, both entry points
    run the same call: the direct path returns or throws what [invoke]
    does on it, and the first result of
    [process_remote_response_and_execute] is the result of that call. *)
Theorem X17_direct_path_agrees_with_first_result
        (api_response choice message tc func args : json)
        (after tcs : list json) (name s : string)
        (Hentries : elements (direct_entries api_response) = choice :: after)
        (Hm : member choice "message" = Some message)
        (Ht : member message "tool_calls" = Some (JArray (tc :: tcs)))
        (Hf : member tc "function" = Some func)
        (Hname : member func "name" = Some (JString name))
        (Hne : name <> EmptyString)
        (Hargs : member func "arguments" = Some (JString s))
        (Hparse : parse s = Some args) :
  handle_tool_call_response_run parse reg api_response
  = ([(name, args)], of_thrown (invoke reg name args))
  /\ forall mode outs,
       process_remote_response_and_execute parse reg api_response mode = Ok outs ->
       exists rest, outs = run_call reg (name, args) :: rest.
Proof.
  split.
  - rewrite (handle_first_direct_function parse reg api_response func).
    + unfold invoke_tool_call, parse_json.
      rewrite (value_string_member _ _ _ _ Hname).
      rewrite (value_string_member _ _ _ _ Hargs). cbn [of_json].
      now rewrite Hparse.
    + exists [], choice, after, message, [], tc, tcs.
      repeat split; auto; constructor.
  - intros mode outs Hout.
    assert (Hobj : is_object choice = true) by now destruct choice.
    pose proof (entries_agree _ _ _ Hentries Hobj) as Hremote.
    destruct (discover parse api_response) as [calls|e] eqn:Hd.
    + rewrite (process_discovered parse reg _ mode _ Hd) in Hout.
      injection Hout as <-.
      apply discover_spec in Hd. subst calls.
      unfold discovery_order. rewrite <- remote_entries_spec, Hremote.
      cbn [flat_map]. unfold spec_node at 1 2. rewrite Hm.
      assert (Hcall : supplied_call parse func = Some (name, args)).
      { unfold supplied_call. rewrite (value_string_member _ _ _ _ Hname).
        apply String.eqb_neq in Hne. rewrite Hne.
        unfold parse_function_arguments. now rewrite Hargs, Hparse. }
      assert (Hlist : exists more,
                list_convention parse message = (name, args) :: more).
      { unfold list_convention. rewrite Ht. simpl. rewrite Hf. simpl.
        rewrite Hcall. eexists. reflexivity. }
      destruct Hlist as [more ->]. simpl. eexists. reflexivity.
    + unfold process_remote_response_and_execute in Hout.
      now rewrite Hd in Hout.
Qed.

(** X18.  The direct path takes textual arguments only: when the
    [arguments] of the call it runs are not a string it throws type error
    302 without invoking a handler, whatever the name of the call,
    although discovery takes an object or an array as the arguments, as
    it is. *)
Theorem X18_direct_path_rejects_structured_arguments
        (api_response func a : json)
        (Hfirst : first_direct_function api_response func)
        (Harg : member func "arguments" = Some a)
        (Hnot : is_string a = false) :
  handle_tool_call_response_run parse reg api_response
  = ([], Raise (JsonError (type_error 302)))
  /\ (is_object a || is_array a = true ->
      parse_function_arguments parse func = a).
Proof.
  split.
  - rewrite (handle_first_direct_function parse reg _ _ Hfirst).
    unfold invoke_tool_call.
    rewrite (value_string_not_string _ _ "{}"%string _ Harg Hnot).
    destruct func as [| | | | |members]; try discriminate Harg.
    unfold value_string.
    now destruct (find_member "name" members) as [[| | | | |]|].
  - unfold parse_function_arguments. rewrite Harg. now destruct a.
Qed.

(** X19.  The direct path does not skip a call without a name: it invokes
    the empty name, which throws when no handler is registered under it,
    whereas discovery passes over such a call. *)
Theorem X19_direct_path_invokes_the_empty_name
        (api_response func args : json) (s : string) (out : list call)
        (Hfirst : first_direct_function api_response func)
        (Hname : member func "name" = None)
        (Hargs : member func "arguments" = Some (JString s))
        (Hparse : parse s = Some args)
        (Hreg : tools_ reg !! EmptyString = None) :
  handle_tool_call_response_run parse reg api_response
  = ([(EmptyString, args)],
     Raise (Thrown (std_exception "Tool not found: ")))
  /\ collect_call parse func out = Ok out.
Proof.
  destruct func as [| | | | |members]; try discriminate Hargs.
  simpl in Hname. split.
  - rewrite (handle_first_direct_function parse reg _ _ Hfirst).
    unfold invoke_tool_call, parse_json.
    rewrite (value_string_member _ _ _ _ Hargs).
    unfold value_string. rewrite Hname. cbn [of_json].
    rewrite Hparse. unfold invoke. now rewrite Hreg.
  - unfold collect_call, value_string. now rewrite Hname.
Qed.

(** X20.  When the direct path returns a value, it has called [invoke]
    exactly once and the value is what that call returned. *)
Theorem X20_direct_path_success_is_one_invocation
        (api_response v : json)
        (H : handle_tool_call_response parse reg api_response = Ok v) :
  exists name args,
    handle_tool_call_response_invocations parse reg api_response
    = [(name, args)]
    /\ invoke reg name args = Ok v.
Proof.
  unfold handle_tool_call_response, handle_tool_call_response_invocations,
    handle_tool_call_response_run in *.
  destruct (scan_choices parse reg _) as [r|] eqn:Hr; [|easy].
  apply scan_choices_some in Hr as [func ->].
  unfold invoke_tool_call in *.
  destruct (of_json (value_string func "name" EmptyString)) as [name|];
    [|easy].
  destruct (of_json (value_string func "arguments" "{}")) as [text|]; [|easy].
  destruct (parse_json parse text) as [args|]; [|easy].
  exists name, args. split; [reflexivity|].
  cbn [snd] in H. destruct (invoke reg name args); simpl in H; congruence.
Qed.

End DirectExtras.

(** ** The further properties at concrete inputs *)

Section MoreInstances.
Import Chars Extractor ExtractorSpec DispatchSpec DirectSpec MoreSpec.
Import Samples MoreSamples.

Lemma X3_witness :
  (1 <= depth nested_locals <= Z.of_nat (length (lbrace :: nested_text)))%Z.
Proof.
  apply (X3_depth_stays_positive lbrace nested_text nested_locals);
    vm_compute; reflexivity.
Defined.

Lemma X5_witness :
  process_streaming_response_and_execute parse registry
    (get_chunk 5 echo_response_text) (fun _ => true) sequential
  = process_streaming_response_and_execute parse registry
      (get_chunk 7 echo_response_text) (fun _ => true) sequential.
Proof.
  apply (X5_chunk_boundaries_do_not_matter parse registry sequential
           (fun _ => true) (get_chunk 5 echo_response_text)
           (get_chunk 7 echo_response_text)).
  vm_compute; reflexivity.
Defined.

Lemma X6_witness :
  delivered
    (fst (process_streaming_response_and_execute parse registry
            (get_chunk 5 echo_response_text) (fun _ => true) sequential))
  = flat_map (batch_of parse registry sequential)
      (dispatched
         (fst (process_streaming_response_and_execute parse registry
                 (get_chunk 5 echo_response_text) (fun _ => true) sequential))).
Proof.
  apply (X6_streaming_delivers_each_batch parse registry sequential
           (fun _ => true) (get_chunk 5 echo_response_text)).
  intros r; reflexivity.
Defined.

Lemma X7_witness :
  fst (process_streaming_response_and_execute parse registry
         (get_chunk 3 noisy_stream) (fun _ => true) (concurrent [0]))
  = Dispatched echo_response :: map Delivered [echo_result]
  /\ snd (process_streaming_response_and_execute parse registry
            (get_chunk 3 noisy_stream) (fun _ => true) (concurrent [0]))
     = trailer.
Proof.
  apply (X7_streaming_agrees_with_direct_call parse registry (concurrent [0])
           (fun _ => true) (get_chunk 3 noisy_stream)
           log_line echo_response_text trailer echo_response [echo_result]).
  - intros r; reflexivity.
  - vm_compute; reflexivity.
  - vm_compute; repeat constructor.
  - vm_compute; repeat constructor.
  - vm_compute; reflexivity.
  - vm_compute; reflexivity.
  - vm_compute; reflexivity.
Defined.

Lemma X8_witness :
  Forall (fun r => tool_name r <> EmptyString) mixed_results.
Proof.
  apply (X8_results_have_names parse registry mixed_response sequential
           mixed_results).
  vm_compute; reflexivity.
Defined.

Lemma X9_witness : discovery_failure (JsonError (type_error 306)).
Proof.
  apply (X9_only_type_errors_escape parse registry
           (response [named "a"; JNumber 1]) sequential).
  vm_compute; reflexivity.
Defined.

Lemma X10_witness :
  process_remote_response_and_execute parse registry chat_response
    (concurrent []) = Ok [].
Proof.
  apply (X10_no_call_fields_no_results parse registry chat_response
           (concurrent [])).
  repeat constructor; intros x; vm_compute; discriminate.
Defined.

Lemma X11_witness :
  Forall (fun r =>
            match invoke registry (tool_name r) (arguments r) with
            | Ok v => result r = v /\ error r = EmptyString
            | Raise t => result r = JNull /\ error r = describe t
            end) mixed_results.
Proof.
  apply (X11_results_report_invoke parse registry mixed_response
           (concurrent [1]) mixed_results).
  vm_compute; reflexivity.
Defined.

Lemma X12_witness :
  process_remote_response_and_execute parse registry mixed_response sequential
  = process_remote_response_and_execute parse bare_registry mixed_response
      sequential
  /\ handle_tool_call_response_run parse registry mixed_response
     = handle_tool_call_response_run parse bare_registry mixed_response.
Proof.
  apply (X12_schemas_are_not_consulted parse registry bare_registry
           mixed_response sequential).
  reflexivity.
Defined.

Lemma X13_witness :
  invoke (register_tool empty_registry "echo" echo JNull) "echo" hi_args
  = echo hi_args.
Proof.
  destruct (X13_fresh_registration empty_registry "echo" echo JNull)
    as (Hnew & _); [vm_compute; reflexivity | vm_compute; reflexivity |].
  apply Hnew.
Defined.

Lemma X15_witness :
  member (spec_schema echo_spec) "name" = Some (JString "echo").
Proof.
  apply (X15_spec_schemas_carry_their_name [echo_spec] "echo"
           (spec_schema echo_spec)).
  vm_compute; reflexivity.
Defined.

Lemma X17_witness :
  handle_tool_call_response_run parse registry echo_response
  = ([("echo", hi_args)], of_thrown (invoke registry "echo" hi_args))
  /\ forall mode outs,
       process_remote_response_and_execute parse registry echo_response mode
       = Ok outs ->
       exists rest, outs = run_call registry ("echo", hi_args) :: rest.
Proof.
  apply (X17_direct_path_agrees_with_first_result parse registry
           echo_response
           (JObject [("message",
                      JObject [("tool_calls",
                                JArray [tool_call "echo" hi_text])])])
           (JObject [("tool_calls", JArray [tool_call "echo" hi_text])])
           (tool_call "echo" hi_text) echo_function hi_args [] []
           "echo" hi_text);
    try (vm_compute; reflexivity).
  discriminate.
Defined.

Lemma X18_witness :
  handle_tool_call_response_run parse registry structured_response
  = ([], Raise (JsonError (type_error 302)))
  /\ (is_object hi_args || is_array hi_args = true ->
      parse_function_arguments parse structured_function = hi_args).
Proof.
  apply (X18_direct_path_rejects_structured_arguments parse registry
           structured_response structured_function hi_args);
    try (vm_compute; reflexivity).
  exists [],
    (JObject [("message",
               JObject [("tool_calls",
                         JArray [JObject [("function", structured_function)]])])]),
    [],
    (JObject [("tool_calls",
               JArray [JObject [("function", structured_function)]])]),
    [], (JObject [("function", structured_function)]), [].
  repeat split; try constructor; vm_compute; reflexivity.
Defined.

Lemma X19_witness :
  handle_tool_call_response_run parse registry unnamed_response
  = ([(EmptyString, JObject [])],
     Raise (Thrown (std_exception "Tool not found: ")))
  /\ collect_call parse unnamed_function [] = Ok [].
Proof.
  apply (X19_direct_path_invokes_the_empty_name parse registry
           unnamed_response unnamed_function (JObject []) "{}" []);
    try (vm_compute; reflexivity).
  exists [],
    (JObject [("message",
               JObject [("tool_calls",
                         JArray [JObject [("function", unnamed_function)]])])]),
    [],
    (JObject [("tool_calls",
               JArray [JObject [("function", unnamed_function)]])]),
    [], (JObject [("function", unnamed_function)]), [].
  repeat split; try constructor; vm_compute; reflexivity.
Defined.

Lemma X20_witness :
  exists name args,
    handle_tool_call_response_invocations parse registry echo_response
    = [(name, args)]
    /\ invoke registry name args = Ok (JObject [("echoed", JString "hi")]).
Proof.
  apply (X20_direct_path_success_is_one_invocation parse registry
           echo_response (JObject [("echoed", JString "hi")])).
  vm_compute; reflexivity.
Defined.

End MoreInstances.
